(** * fluxApp dispatcher (src/dispatcher.js)

    A shallow embedding of the [Dispatcher] class and of the part of the
    promise plumbing (bluebird's [Promise.using], [Promise.each],
    [Promise.method] and disposers) that its behaviour depends on.

    Reading guide.

    - An identifier is the token ['ID_' + n] made by [register]; it is
      represented by [n] and printed by [id_string].
    - [_callbacks] and [_pending] are JavaScript objects with string keys:
      association lists in insertion order, which is the order of
      [Object.keys] and of lodash's [_.keys].
    - [_isDispatching] is never initialised by the class: it is [None]
      (undefined) until [dispatch] or [_stopDispatching] assigns it.
    - Callbacks are code of the dispatcher's clients.  The dispatcher is
      therefore modelled as a reactive system: a [call] is either a call
      of a public method (made by a callback or by anyone else), or the
      promise library running the handler of a batch ([RunBatch]), or
      the promise returned by an invoked callback settling ([Settle]).
      What the dispatcher does to the outside is recorded in [trace].
    - Of bluebird the model keeps this: [Promise.using] runs its handler
      later than the call that made it, and runs the disposer when the
      promise of the handler has settled, before its own promise settles
      with the same outcome; [Promise.each] takes the items one after
      the other, waits for the promise of each and rejects at the first
      one that rejects, without going on; [Promise.method] turns a throw
      into a rejected promise.
    - Between two calls the promise plumbing is taken to be
      instantaneous: when a callback settles, its job disposer, the next
      iteration of [Promise.each] and, at the end of the list, the batch
      disposer run in one step. *)

From Stdlib Require Import List String Arith Bool Lia PeanoNat.
From Stdlib Require Import DecimalNat DecimalString.
Import ListNotations.
Local Open Scope string_scope.
Local Open Scope list_scope.

(** ** JavaScript objects used as ordered maps *)

Section Obj.
Context {V : Type}.

Definition obj := list (nat * V).

Fixpoint obj_get (k : nat) (o : obj) : option V :=
  match o with
  | [] => None
  | (k', v) :: o' => if Nat.eqb k k' then Some v else obj_get k o'
  end.

(** [o[k] = v]: an existing key keeps its place, a new key goes last. *)
Fixpoint obj_set (k : nat) (v : V) (o : obj) : obj :=
  match o with
  | [] => [(k, v)]
  | (k', v') :: o' =>
      if Nat.eqb k k' then (k', v) :: o' else (k', v') :: obj_set k v o'
  end.

(** [delete o[k]] *)
Definition obj_delete (k : nat) (o : obj) : obj :=
  filter (fun kv => negb (Nat.eqb k (fst kv))) o.

Definition obj_keys (o : obj) : list nat := map fst o.
End Obj.

Arguments obj V : clear implicits.

(** ** Data *)

Definition id := nat.
Definition payload := nat.
Definition callback := nat.   (* names the function given to [register] *)
Definition promise := nat.    (* a promise handed out by the dispatcher *)
Definition invocation := nat. (* one call of a registered callback *)

Definition _prefix : string := "ID_".

Definition id_string (n : id) : string :=
  (_prefix ++ NilEmpty.string_of_uint (Nat.to_uint n))%string.

Inductive outcome :=
| Resolved
| Rejected (message : string).

(** The function stored in [_pending] by [dispatch]:
    [() => _.isFunction(this._callbacks[idx]) ? this._callbacks[idx](payload)
                                              : Promise.resolve()] *)
Record closure := { c_idx : id; c_payload : payload }.

Inductive batch_state :=
| Created (idxs : list id)
    (* [Promise.using] holds the key list; its handler has not run *)
| Awaiting (inv : invocation) (idx : id) (rest : list id).
    (* [Promise.each] waits for the job of [idx] *)

Record batch := { b_promise : promise; b_state : batch_state }.

Inductive event :=
| Invoke (inv : invocation) (idx : id) (cb : callback) (p : payload)
| Return (inv : invocation) (o : outcome)
| Settled (pr : promise) (o : outcome)
| Stop.   (* [_stopDispatching] ran *)

Record Dispatcher := {
  _lastID : nat;
  _callbacks : obj callback;
  _queued : list (payload * promise);
  _openPromises : list id;
  _pending : obj closure;
  _isDispatching : option bool;
  _dispatchingId : option id;
  (* promise library *)
  promises : nat;
  invocations : nat;
  batches : list batch;
  thens : list (promise * promise);
  trace : list event
}.

(** [new Dispatcher()], with the module's [_lastID = 1].  [_pending] is
    assigned by [dispatch] before anything reads it. *)
Definition new_Dispatcher : Dispatcher :=
  {| _lastID := 1; _callbacks := []; _queued := []; _openPromises := [];
     _pending := []; _isDispatching := None; _dispatchingId := None;
     promises := 0; invocations := 0; batches := []; thens := [];
     trace := [] |}.

Section Setters.
Variable d : Dispatcher.

Definition set_lastID n :=
  {| _lastID := n; _callbacks := _callbacks d; _queued := _queued d;
     _openPromises := _openPromises d; _pending := _pending d;
     _isDispatching := _isDispatching d; _dispatchingId := _dispatchingId d;
     promises := promises d; invocations := invocations d;
     batches := batches d; thens := thens d; trace := trace d |}.

Definition set_callbacks c :=
  {| _lastID := _lastID d; _callbacks := c; _queued := _queued d;
     _openPromises := _openPromises d; _pending := _pending d;
     _isDispatching := _isDispatching d; _dispatchingId := _dispatchingId d;
     promises := promises d; invocations := invocations d;
     batches := batches d; thens := thens d; trace := trace d |}.

Definition set_queued q :=
  {| _lastID := _lastID d; _callbacks := _callbacks d; _queued := q;
     _openPromises := _openPromises d; _pending := _pending d;
     _isDispatching := _isDispatching d; _dispatchingId := _dispatchingId d;
     promises := promises d; invocations := invocations d;
     batches := batches d; thens := thens d; trace := trace d |}.

Definition set_openPromises o :=
  {| _lastID := _lastID d; _callbacks := _callbacks d; _queued := _queued d;
     _openPromises := o; _pending := _pending d;
     _isDispatching := _isDispatching d; _dispatchingId := _dispatchingId d;
     promises := promises d; invocations := invocations d;
     batches := batches d; thens := thens d; trace := trace d |}.

Definition set_pending p :=
  {| _lastID := _lastID d; _callbacks := _callbacks d; _queued := _queued d;
     _openPromises := _openPromises d; _pending := p;
     _isDispatching := _isDispatching d; _dispatchingId := _dispatchingId d;
     promises := promises d; invocations := invocations d;
     batches := batches d; thens := thens d; trace := trace d |}.

Definition set_isDispatching f :=
  {| _lastID := _lastID d; _callbacks := _callbacks d; _queued := _queued d;
     _openPromises := _openPromises d; _pending := _pending d;
     _isDispatching := f; _dispatchingId := _dispatchingId d;
     promises := promises d; invocations := invocations d;
     batches := batches d; thens := thens d; trace := trace d |}.

Definition set_dispatchingId i :=
  {| _lastID := _lastID d; _callbacks := _callbacks d; _queued := _queued d;
     _openPromises := _openPromises d; _pending := _pending d;
     _isDispatching := _isDispatching d; _dispatchingId := i;
     promises := promises d; invocations := invocations d;
     batches := batches d; thens := thens d; trace := trace d |}.

Definition set_promises n :=
  {| _lastID := _lastID d; _callbacks := _callbacks d; _queued := _queued d;
     _openPromises := _openPromises d; _pending := _pending d;
     _isDispatching := _isDispatching d; _dispatchingId := _dispatchingId d;
     promises := n; invocations := invocations d;
     batches := batches d; thens := thens d; trace := trace d |}.

Definition set_invocations n :=
  {| _lastID := _lastID d; _callbacks := _callbacks d; _queued := _queued d;
     _openPromises := _openPromises d; _pending := _pending d;
     _isDispatching := _isDispatching d; _dispatchingId := _dispatchingId d;
     promises := promises d; invocations := n;
     batches := batches d; thens := thens d; trace := trace d |}.

Definition set_batches b :=
  {| _lastID := _lastID d; _callbacks := _callbacks d; _queued := _queued d;
     _openPromises := _openPromises d; _pending := _pending d;
     _isDispatching := _isDispatching d; _dispatchingId := _dispatchingId d;
     promises := promises d; invocations := invocations d;
     batches := b; thens := thens d; trace := trace d |}.

Definition set_thens t :=
  {| _lastID := _lastID d; _callbacks := _callbacks d; _queued := _queued d;
     _openPromises := _openPromises d; _pending := _pending d;
     _isDispatching := _isDispatching d; _dispatchingId := _dispatchingId d;
     promises := promises d; invocations := invocations d;
     batches := batches d; thens := t; trace := trace d |}.

Definition set_trace t :=
  {| _lastID := _lastID d; _callbacks := _callbacks d; _queued := _queued d;
     _openPromises := _openPromises d; _pending := _pending d;
     _isDispatching := _isDispatching d; _dispatchingId := _dispatchingId d;
     promises := promises d; invocations := invocations d;
     batches := batches d; thens := thens d; trace := t |}.
End Setters.

Definition emit (e : event) (d : Dispatcher) : Dispatcher :=
  set_trace d (trace d ++ [e]).

(** JavaScript truthiness of [this._isDispatching]. *)
Definition truthy (f : option bool) : bool :=
  match f with Some true => true | _ => false end.

(** ** The promise library *)

(** [new Promise(...)]: a fresh pending promise. *)
Definition new_promise (d : Dispatcher) : promise * Dispatcher :=
  (promises d, set_promises d (S (promises d))).

(** The promises that settle when one of [hs] does, through the
    [then(resolve, reject)] links in [ls] (newest link first). *)
Fixpoint followers (ls : list (promise * promise)) (hs : list promise)
  : list promise :=
  match ls with
  | [] => hs
  | (a, b) :: ls' =>
      if existsb (Nat.eqb a) hs then followers ls' (hs ++ [b])
      else followers ls' hs
  end.

(** A promise settles, and with it the promises chained to it. *)
Definition settle (h : promise) (o : outcome) (d : Dispatcher) : Dispatcher :=
  set_trace d (trace d ++ map (fun p => Settled p o) (followers (thens d) [h])).

(** [h.then(resolve, reject)] with the resolvers of promise [q]. *)
Definition then_ (h q : promise) (d : Dispatcher) : Dispatcher :=
  set_thens d ((h, q) :: thens d).

(** ** The dispatcher *)

(** [register(callback)] *)
Definition register (cb : callback) (d : Dispatcher) : id * Dispatcher :=
  let id := _lastID d in
  let d := set_callbacks d (obj_set id cb (_callbacks d)) in
  let d := set_lastID d (_lastID d + 1) in
  (id, d).

(** [unregister(id)] *)
Definition unregister (i : id) (d : Dispatcher) : Dispatcher :=
  set_callbacks d (obj_delete i (_callbacks d)).

(** [isDispatching()]: [false !== this._isDispatching] *)
Definition isDispatching (d : Dispatcher) : bool :=
  match _isDispatching d with
  | Some false => false
  | _ => true
  end.

(** [_queue(payload)] *)
Definition _queue (p : payload) (d : Dispatcher) : promise * Dispatcher :=
  let (q, d) := new_promise d in
  (q, set_queued d (_queued d ++ [(p, q)])).

(** [_batchPromise(promises)]: the resource is [_.keys(promises)], taken
    when the batch is made. *)
Definition _batchPromise {V} (promises : obj V) : list id := obj_keys promises.

(** [_dispatchBatch(batch)], up to where [Promise.using] waits to run its
    handler; the handler is [_dispatchBatch_each] below. *)
Definition _dispatchBatch {V} (batch : obj V) (d : Dispatcher)
  : promise * Dispatcher :=
  let (h, d) := new_promise d in
  (h, set_batches d (batches d ++
                     [{| b_promise := h; b_state := Created (_batchPromise batch) |}])).

(** [dispatch(payload)] *)
Definition dispatch (p : payload) (d : Dispatcher) : promise * Dispatcher :=
  if truthy (_isDispatching d) then _queue p d
  else
    let d := set_isDispatching d (Some true) in
    let d := set_openPromises d [] in
    let d := set_pending d [] in
    let d := set_pending d
               (fold_left (fun pend idx =>
                             obj_set idx {| c_idx := idx; c_payload := p |} pend)
                          (obj_keys (_callbacks d)) (_pending d)) in
    _dispatchBatch (_callbacks d) d.

(** [_drain()] *)
Definition _drain (d : Dispatcher) : Dispatcher :=
  match _queued d with
  | [] => d
  | (p, q) :: rest =>
      let d := set_queued d rest in
      let (h, d) := dispatch p d in
      then_ h q d
  end.

(** [_stopDispatching()] *)
Definition _stopDispatching (d : Dispatcher) : Dispatcher :=
  let d := emit Stop d in
  let d := set_isDispatching d (Some false) in
  _drain d.

(** The disposer of [_batchPromise]. *)
Definition _batchPromise_disposer (d : Dispatcher) : Dispatcher :=
  let d := set_dispatchingId d None in
  _stopDispatching d.

(** [_postDispatch(idx)]; a token ['ID_n'] is a non-empty string, so the
    guard [if (idx)] passes. *)
Definition _postDispatch (idx : id) (d : Dispatcher) : Dispatcher :=
  let d := set_pending d (obj_delete idx (_pending d)) in
  set_openPromises d (filter (fun i => negb (Nat.eqb idx i)) (_openPromises d)).

(** Calling a function of [_pending]: the registered callback if there
    still is one, else [Promise.resolve()]. *)
Definition call_closure (c : closure) (d : Dispatcher) : option (callback * payload) :=
  match obj_get (c_idx c) (_callbacks d) with
  | Some cb => Some (cb, c_payload c)
  | None => None
  end.

Definition remove_batch (h : promise) (d : Dispatcher) : Dispatcher :=
  set_batches d (filter (fun b => negb (Nat.eqb h (b_promise b))) (batches d)).

Definition set_batch_state (h : promise) (s : batch_state) (d : Dispatcher)
  : Dispatcher :=
  set_batches d (map (fun b => if Nat.eqb h (b_promise b)
                               then {| b_promise := h; b_state := s |} else b)
                     (batches d)).

(** The handler of the outer [Promise.using] has settled with [o]: the
    batch disposer runs, then the promise of the batch settles. *)
Definition using_done (h : promise) (o : outcome) (d : Dispatcher) : Dispatcher :=
  let d := remove_batch h d in
  let d := _batchPromise_disposer d in
  settle h o d.

(** The handler of [_dispatchBatch]: [Promise.each(idxs, ...)] from the
    identifier it has reached, up to the next callback it has to wait
    for.  A rejected job ends the iteration (see [job_settled]). *)
Fixpoint _dispatchBatch_each (h : promise) (idxs : list id) (d : Dispatcher)
  : Dispatcher :=
  match idxs with
  | [] => using_done h Resolved d
  | idx :: rest =>
      let d := set_dispatchingId d (Some idx) in
      let d := set_openPromises d (_openPromises d ++ [idx]) in
      match obj_get idx (_pending d) with
      | None => (* [cb ? cb() : null] *)
          _dispatchBatch_each h rest (_postDispatch idx d)
      | Some cb =>
          match call_closure cb d with
          | None => _dispatchBatch_each h rest (_postDispatch idx d)
          | Some (f, p) =>
              let inv := invocations d in
              let d := set_invocations d (S inv) in
              let d := emit (Invoke inv idx f p) d in
              set_batch_state h (Awaiting inv idx rest) d
          end
      end
  end.

(** The promise of an invoked callback settles: the job disposer runs,
    then [Promise.each] goes on, or rejects at once. *)
Definition job_settled (h : promise) (idx : id) (rest : list id) (o : outcome)
  (d : Dispatcher) : Dispatcher :=
  let d := _postDispatch idx d in
  match o with
  | Resolved => _dispatchBatch_each h rest d
  | Rejected m => using_done h (Rejected m) d
  end.

Inductive result (A : Type) :=
| Ok (a : A)
| Throw (message : string).
Arguments Ok {A} a.
Arguments Throw {A} message.

(** Modelled from the spec: the decorator [./decorators/promise-method]
    is not among the sources.  Section 4.4 has [waitFor] fail by a
    rejected outcome: an error thrown by the method becomes a rejected
    promise, a returned promise is handed on. *)
Definition promiseMethod (method : Dispatcher -> result (promise * Dispatcher))
  (d : Dispatcher) : promise * Dispatcher :=
  match method d with
  | Ok r => r
  | Throw m => let (h, d) := new_promise d in (h, settle h (Rejected m) d)
  end.

Definition not_dispatching_error : string :=
  "Dispatcher.waitFor(...): Must be invoked while dispatching.".

Definition unknown_id_error (i : id) : string :=
  ("Dispatcher.waitFor(...): `" ++ id_string i ++
   "` does not map to a registered callback.")%string.

Definition circular_error : string :=
  "Dispatcher.waitFor(...): Circular dependency detected".

(** The [ids.forEach] of [waitFor]. *)
Fixpoint waitFor_forEach (d : Dispatcher) (ids : list id) (pending : obj closure)
  : result (obj closure) :=
  match ids with
  | [] => Ok pending
  | i :: ids' =>
      let cb := obj_get i (_pending d) in
      match obj_get i (_callbacks d) with
      | None => Throw (unknown_id_error i)
      | Some _ =>
          if existsb (Nat.eqb i) (_openPromises d) then Throw circular_error
          else
            match cb with
            | Some c => waitFor_forEach d ids' (obj_set i c pending)
            | None => waitFor_forEach d ids' pending
            end
      end
  end.

Definition waitFor_method (ids : list id) (d : Dispatcher)
  : result (promise * Dispatcher) :=
  if negb (truthy (_isDispatching d)) then Throw not_dispatching_error
  else
    match waitFor_forEach d ids [] with
    | Throw m => Throw m
    | Ok pending =>
        match obj_keys pending with
        | _ :: _ => Ok (_dispatchBatch pending d)
        | [] => (* [Promise.resolve()] *)
            let (h, d) := new_promise d in Ok (h, settle h Resolved d)
        end
    end.

(** [waitFor(ids)] *)
Definition waitFor (ids : list id) : Dispatcher -> promise * Dispatcher :=
  promiseMethod (waitFor_method ids).

(** ** The dispatcher as a reactive system *)

Inductive call :=
| Register (cb : callback)
| Unregister (i : id)
| Dispatch (p : payload)
| WaitFor (ids : list id)
| RunBatch (h : promise)
| Settle (inv : invocation) (o : outcome).

Definition find_created (h : promise) (d : Dispatcher) : option (list id) :=
  match find (fun b => Nat.eqb h (b_promise b)) (batches d) with
  | Some {| b_state := Created idxs |} => Some idxs
  | _ => None
  end.

Definition awaits (inv : invocation) (b : batch) : bool :=
  match b_state b with
  | Awaiting inv' _ _ => Nat.eqb inv inv'
  | Created _ => false
  end.

Definition step (c : call) (d : Dispatcher) : Dispatcher :=
  match c with
  | Register cb => snd (register cb d)
  | Unregister i => unregister i d
  | Dispatch p => snd (dispatch p d)
  | WaitFor ids => snd (waitFor ids d)
  | RunBatch h =>
      match find_created h d with
      | Some idxs => _dispatchBatch_each h idxs d
      | None => d
      end
  | Settle inv o =>
      match find (awaits inv) (batches d) with
      | Some {| b_promise := h; b_state := Awaiting _ idx rest |} =>
          job_settled h idx rest o (emit (Return inv o) d)
      | _ => d
      end
  end.

Definition run (cs : list call) (d : Dispatcher) : Dispatcher :=
  fold_left (fun d c => step c d) cs d.



(** ** Reading a trace *)

(** The callbacks invoked, in order, each with the payload it got. *)
Definition invoked (tr : list event) : list (id * payload) :=
  flat_map (fun e => match e with
                     | Invoke _ i _ p => [(i, p)]
                     | _ => []
                     end) tr.

Definition count_invocations (i : id) (tr : list event) : nat :=
  List.length (filter (fun ip => Nat.eqb i (fst ip)) (invoked tr)).

Definition count_stops (tr : list event) : nat :=
  List.length (filter (fun e => match e with Stop => true | _ => false end) tr).

(** Whether some callback is invoked with one payload while an
    invocation with another payload has not returned; [running] holds
    the invocations that have not returned yet. *)
Fixpoint interleaves (running : list (invocation * payload)) (tr : list event)
  : bool :=
  match tr with
  | [] => false
  | Invoke inv _ _ p :: tr' =>
      existsb (fun r => negb (Nat.eqb p (snd r))) running
      || interleaves ((inv, p) :: running) tr'
  | Return inv _ :: tr' =>
      interleaves (filter (fun r => negb (Nat.eqb inv (fst r))) running) tr'
  | _ :: tr' => interleaves running tr'
  end.

Definition no_dispatch (c : call) : Prop :=
  match c with Dispatch _ => False | _ => True end.

Definition registered (i : id) (d : Dispatcher) : Prop :=
  obj_get i (_callbacks d) <> None.

Definition open (i : id) (d : Dispatcher) : Prop := In i (_openPromises d).

(** ** What holds of every state the dispatcher can reach *)

Record wf_core (d : Dispatcher) : Prop := {
  wf_pending : forall k c, In (k, c) (_pending d) -> c_idx c = k;
  wf_callbacks : NoDup (obj_keys (_callbacks d));
  wf_batches : forall b, In b (batches d) -> b_promise b < promises d;
  wf_awaiting : forall b inv idx rest,
      In b (batches d) -> b_state b = Awaiting inv idx rest ->
      inv < invocations d;
  wf_thens : forall a b, In (a, b) (thens d) -> a < promises d
}.

(** Calls are queued only while the flag is set. *)
Definition idle_queue (d : Dispatcher) : Prop :=
  truthy (_isDispatching d) = false -> _queued d = [].

Definition wf (d : Dispatcher) : Prop := wf_core d /\ idle_queue d.

(** ** Notions used in the statements *)

(** The registry is touched by [register] and [unregister] only. *)
Definition same_registry (d d' : Dispatcher) : Prop :=
  _callbacks d' = _callbacks d /\ _lastID d' = _lastID d.

(** [i] has been issued and is not registered. *)
Definition gone (i : id) (d : Dispatcher) : Prop :=
  wf d /\ obj_get i (_callbacks d) = None /\ i < _lastID d.

Definition no_new_invoke (i : id) (d d' : Dispatcher) : Prop :=
  forall inv f p,
    In (Invoke inv i f p) (trace d') -> In (Invoke inv i f p) (trace d).

(** [idx] has no pending entry and no call is queued. *)
Definition consumed (idx : id) (d : Dispatcher) : Prop :=
  obj_get idx (_pending d) = None /\ _queued d = [].

(** The state in which [dispatch(payload)] makes its batch. *)
Definition opened (p : payload) (d : Dispatcher) : Dispatcher :=
  set_pending (set_openPromises (set_isDispatching d (Some true)) [])
    (fold_left (fun pend idx =>
                  obj_set idx {| c_idx := idx; c_payload := p |} pend)
               (obj_keys (_callbacks d)) []).

(** The state in which a batch waits for the callback it has invoked. *)
Definition invoke_state (h : promise) (idx : id) (rest : list id)
  (f : callback) (p : payload) (d : Dispatcher) : Dispatcher :=
  set_batch_state h (Awaiting (invocations d) idx rest)
    (emit (Invoke (invocations d) idx f p)
       (set_invocations
          (set_openPromises (set_dispatchingId d (Some idx))
             (_openPromises d ++ [idx]))
          (S (invocations d)))).

(** ** Scenarios *)

(** Callbacks B (ID_1) and A (ID_2).  During [dispatch(1)] B calls
    [waitFor([ID_2])]; while A runs, [dispatch(2)] is called; A settles;
    the batch made for the queued call runs while B has not settled. *)
Definition nested_then_queued : list call :=
  [Register 100; Register 101; Dispatch 1; RunBatch 0;
   WaitFor [2]; RunBatch 1; Dispatch 2; Settle 1 Resolved; RunBatch 3].

(** B (ID_1) waits for A (ID_2) once; nothing else is dispatched. *)
Definition one_waitFor : list call :=
  [Register 100; Register 101; Dispatch 1; RunBatch 0;
   WaitFor [2]; RunBatch 1; Settle 1 Resolved].

(** Callbacks B (ID_1), A (ID_2) and C (ID_3).  B waits for A, and once
    A has settled [dispatch(2)] is called while B is still running. *)
Definition dispatch_after_waitFor : list call :=
  [Register 100; Register 101; Register 102; Dispatch 1; RunBatch 0;
   WaitFor [2]; RunBatch 1; Settle 1 Resolved; Dispatch 2; RunBatch 2].

(** A (ID_1) throws Error("boom"); B (ID_2) is registered after it. *)
Definition boom_first : list call :=
  [Register 100; Register 101; Dispatch 1; RunBatch 0;
   Settle 0 (Rejected "boom")].


(** A (ID_1) is running during [dispatch(1)] and waits for B (ID_2),
    whose callback is running in the batch made for that. *)
Definition wait_chain : list call :=
  [Register 100; Register 101; Dispatch 1; RunBatch 0;
   WaitFor [2]; RunBatch 1].

(** B (ID_1) is running during [dispatch(1)]; A (ID_2) is pending. *)
Definition busy : Dispatcher :=
  run [Register 100; Register 101; Dispatch 1; RunBatch 0] new_Dispatcher.


(** B (ID_1), C (ID_2), A (ID_3).  B calls [waitFor([ID_2, ID_3])] and
    [waitFor([ID_3])] without waiting for the first; C settles while A
    is still running. *)
Definition two_waitFors : list call :=
  [Register 100; Register 101; Register 102; Dispatch 1; RunBatch 0;
   WaitFor [2; 3]; WaitFor [3]; RunBatch 1; RunBatch 2; Settle 1 Resolved].

Definition dispatch_after_waitFor_settled : list call :=
  dispatch_after_waitFor ++
  [Settle 0 Resolved; Settle 2 Resolved; Settle 3 Resolved;
   Settle 4 Resolved; Settle 5 Resolved; Settle 6 Resolved].

(** ** Notions used for the rest of the class *)

(** Identifiers are issued in increasing order: what is registered,
    what is pending and what has been invoked was issued before. *)
Definition issued (d : Dispatcher) : Prop :=
  Forall (fun k => k < _lastID d) (obj_keys (_callbacks d)) /\
  Forall (fun k => k < _lastID d) (obj_keys (_pending d)) /\
  (forall inv i f p, In (Invoke inv i f p) (trace d) -> i < _lastID d).

(** The pending map that [dispatch(p)] builds for the keys [ks]. *)
Definition snapshot (p : payload) (ks : list id) : obj closure :=
  map (fun k => (k, {| c_idx := k; c_payload := p |})) ks.

(** [l] without the elements of [seen] and without repetitions, each
    element where it comes first. *)
Fixpoint uniq (seen l : list id) : list id :=
  match l with
  | [] => []
  | k :: l' =>
      if existsb (Nat.eqb k) seen then uniq seen l'
      else k :: uniq (seen ++ [k]) l'
  end.

Definition has_pending (d : Dispatcher) (i : id) : bool :=
  match obj_get i (_pending d) with
  | Some _ => true
  | None => false
  end.

(** Nothing would be invoked for [k]: it has no pending entry, or the
    callback its entry calls is not registered any more. *)
Definition skipped (d : Dispatcher) (k : id) : Prop :=
  match obj_get k (_pending d) with
  | None => True
  | Some c => obj_get (c_idx c) (_callbacks d) = None
  end.

(** The entries of the pending map all carry one payload. *)
Definition one_payload (d : Dispatcher) : Prop :=
  forall k c k' c',
    In (k, c) (_pending d) -> In (k', c') (_pending d) ->
    c_payload c = c_payload c'.

(** Two callbacks: [b] (ID_1), registered first, waits for [a] (ID_2). *)
Definition two_registered : Dispatcher :=
  run [Register 100; Register 101] new_Dispatcher.

(** ID_1 has settled and the batch of [dispatch(1)] waits for ID_2. *)
Definition second_running : Dispatcher :=
  run [Register 100; Register 101; Dispatch 1; RunBatch 0; Settle 0 Resolved]
    new_Dispatcher.

(** A broadcast is open and two more calls of [dispatch] are queued. *)
Definition two_queued : Dispatcher :=
  run [Register 100; Dispatch 1; Dispatch 2; Dispatch 3] new_Dispatcher.

(** [dispatch(1)] has been called with two callbacks registered, and
    both have been unregistered before its batch runs. *)
Definition all_unregistered : Dispatcher :=
  run [Register 100; Register 101; Dispatch 1; Unregister 1; Unregister 2]
    new_Dispatcher.

(** ** Notions used for whole broadcasts *)

(** The callback of [i] is running: a batch has invoked it and waits for
    the promise it returned. *)
Definition running (i : id) (d : Dispatcher) : Prop :=
  exists b inv rest,
    In b (batches d) /\ b_state b = Awaiting inv i rest.

(** The identifiers invoked since the trace had [n] events, in order. *)
Definition invoked_since (n : nat) (d : Dispatcher) : list id :=
  map fst (invoked (skipn n (trace d))).




(** B (ID_1), C (ID_2), A (ID_3).  B calls [waitFor([ID_3])] and
    [waitFor([ID_3, ID_2])] without waiting for the first: A is invoked
    by both batches, and its second invocation settles while the first
    is still running. *)
Definition second_invocation : list call :=
  [Register 100; Register 101; Register 102; Dispatch 1; RunBatch 0;
   WaitFor [3]; WaitFor [3; 2]; RunBatch 1; RunBatch 2; Settle 2 Resolved].

(** B (ID_1) waits for A (ID_2), and [dispatch(2)] is called when A has
    settled: B is still running. *)
Definition dispatch_inside : list call :=
  [Register 100; Register 101; Dispatch 1; RunBatch 0;
   WaitFor [2]; RunBatch 1; Settle 1 Resolved; Dispatch 2].

(** A call of one of the public methods [register], [unregister],
    [dispatch] and [waitFor]. *)
Definition method_call (c : call) : Prop :=
  match c with
  | RunBatch _ | Settle _ _ => False
  | _ => True
  end.

(** The payloads that [cs] hands to [dispatch], in order. *)
Definition dispatched (cs : list call) : list payload :=
  flat_map (fun c => match c with Dispatch p => [p] | _ => [] end) cs.

(** [dispatch(1)] with nothing registered, then [dispatch(2)] and
    [dispatch(3)] before the batch of the first call runs. *)
Definition three_dispatches : list call :=
  [Dispatch 1; Dispatch 2; Dispatch 3; RunBatch 0].

(** ID_1 has been unregistered after a first broadcast. *)
Definition emptied : Dispatcher :=
  run [Register 100; Dispatch 1; RunBatch 0; Settle 0 Resolved; Unregister 1]
    new_Dispatcher.


(** The promises settled in a trace. *)
Definition settled (tr : list event) : list promise :=
  flat_map (fun e => match e with Settled x _ => [x] | _ => [] end) tr.

(** How the promises made so far are used: [qs] are held by queued
    callers, [bs] belong to batches in flight, [th] chains the promise
    of a batch to the promise of the queued caller it was started for,
    [n] is the next promise and [st] are the promises settled. *)
Record roles (qs bs : list promise) (th : list (promise * promise))
  (n : nat) (st : list promise) : Prop := {
  r_queue : forall x, In x qs -> x < n;
  r_batch : forall x, In x bs -> x < n;
  r_then : forall a b, In (a, b) th -> a < n /\ b < n;
  r_settled : forall x, In x st -> x < n;
  r_queue_once : NoDup qs;
  r_target_once : NoDup (map snd th);
  r_queue_batch : forall x, In x qs -> ~ In x bs;
  r_queue_target : forall x, In x qs -> ~ In x (map snd th);
  r_batch_target : forall x, In x bs -> ~ In x (map snd th);
  r_source_queue : forall a b, In (a, b) th -> ~ In a qs;
  r_source_target : forall a b, In (a, b) th -> ~ In a (map snd th);
  r_done : forall x, In x st ->
      ~ In x qs /\ ~ In x bs /\ forall a, In (a, x) th -> ~ In a bs
}.

(** The promises of a dispatcher in their roles. *)
Definition promise_roles (d : Dispatcher) : Prop :=
  roles (map snd (_queued d)) (map b_promise (batches d)) (thens d)
    (promises d) (settled (trace d)).

(** What a step adds to the trace settles nothing, or it is the
    settlement of one promise, of a batch in flight or new, and of what
    is chained to it. *)
Definition one_settlement (d d' : Dispatcher) (t : list event) : Prop :=
  settled t = [] \/
  exists h o,
    (In h (map b_promise (batches d)) \/ h = promises d) /\
    forall x o', In (Settled x o') t <-> o' = o /\ In x (followers (thens d') [h]).

(** * Properties *)

(** ** Objects *)

Section ObjFacts.
Context {V : Type}.
Implicit Types (o : obj V) (k i : nat) (v : V).

Lemma obj_get_In o k v : obj_get k o = Some v -> In (k, v) o.
Proof.
  induction o as [|[k' v'] o IH]; cbn; [discriminate|].
  destruct (Nat.eqb_spec k k') as [->|_].
  - intros [= ->]. now left.
  - intros H. right. now apply IH.
Qed.

Lemma obj_get_keys o k : obj_get k o <> None <-> In k (obj_keys o).
Proof.
  induction o as [|[k' v'] o IH]; cbn; [tauto|].
  destruct (Nat.eqb_spec k k') as [->|Hne].
  - split; [now left | discriminate].
  - rewrite IH. split; [now right | intros [H|H]; [congruence|exact H]].
Qed.

Lemma obj_get_None_keys o k : obj_get k o = None <-> ~ In k (obj_keys o).
Proof.
  rewrite <- obj_get_keys. destruct (obj_get k o); split; try congruence.
  intros H. now contradiction H.
Qed.

Lemma obj_set_In o i v k c :
  In (k, c) (obj_set i v o) -> (k, c) = (i, v) \/ In (k, c) o.
Proof.
  induction o as [|[k' v'] o IH]; cbn.
  - intros [H|[]]. left. now symmetry.
  - destruct (Nat.eqb_spec i k') as [->|_]; cbn.
    + intros [H|H]; [left; now symmetry | right; now right].
    + intros [H|H]; [right; now left|].
      destruct (IH H) as [E|E]; [now left | right; now right].
Qed.

Lemma obj_keys_set o i v :
  obj_keys (obj_set i v o) =
  if existsb (Nat.eqb i) (obj_keys o) then obj_keys o else obj_keys o ++ [i].
Proof.
  unfold obj_keys.
  induction o as [|[k' v'] o IH]; cbn; [reflexivity|].
  destruct (Nat.eqb i k'); cbn; [reflexivity|].
  rewrite IH. now destruct (existsb (Nat.eqb i) (map fst o)).
Qed.

Lemma existsb_eqb_In i (l : list nat) : existsb (Nat.eqb i) l = true <-> In i l.
Proof.
  rewrite existsb_exists. split.
  - intros (x & Hx & E). apply Nat.eqb_eq in E. now subst.
  - intros H. exists i. split; [exact H | apply Nat.eqb_refl].
Qed.

Lemma obj_set_NoDup o i v : NoDup (obj_keys o) -> NoDup (obj_keys (obj_set i v o)).
Proof.
  intros H. rewrite obj_keys_set.
  destruct (existsb (Nat.eqb i) (obj_keys o)) eqn:E; [exact H|].
  apply NoDup_app; [exact H | repeat constructor; intros [] |].
  intros x Hx [<-|[]]. apply existsb_eqb_In in Hx. congruence.
Qed.

Lemma obj_delete_In o i k c : In (k, c) (obj_delete i o) -> In (k, c) o.
Proof. unfold obj_delete. rewrite filter_In. tauto. Qed.

Lemma obj_keys_delete o i :
  obj_keys (obj_delete i o) = filter (fun k => negb (Nat.eqb i k)) (obj_keys o).
Proof.
  unfold obj_keys, obj_delete.
  induction o as [|[k' v'] o IH]; cbn; [reflexivity|].
  destruct (Nat.eqb i k'); cbn; now rewrite IH.
Qed.

Lemma obj_get_delete o i : obj_get i (obj_delete i o) = None.
Proof.
  apply obj_get_None_keys. rewrite obj_keys_delete, filter_In.
  rewrite Nat.eqb_refl. cbn. intros [_ [=]].
Qed.

Lemma obj_get_delete_None o i k :
  obj_get k o = None -> obj_get k (obj_delete i o) = None.
Proof.
  rewrite !obj_get_None_keys, obj_keys_delete, filter_In. tauto.
Qed.

Lemma obj_get_delete_other o i k :
  i <> k -> obj_get k (obj_delete i o) = obj_get k o.
Proof.
  intros Hne. unfold obj_delete.
  induction o as [|[k' v'] o IH]; cbn; [reflexivity|].
  destruct (Nat.eqb_spec i k') as [->|Hik]; cbn.
  - destruct (Nat.eqb_spec k k'); [congruence | exact IH].
  - now rewrite IH.
Qed.

Lemma obj_get_set_other o i v k :
  i <> k -> obj_get k (obj_set i v o) = obj_get k o.
Proof.
  intros Hne. induction o as [|[k' v'] o IH]; cbn.
  - destruct (Nat.eqb_spec k i); [congruence | reflexivity].
  - destruct (Nat.eqb_spec i k') as [->|Hik]; cbn.
    + destruct (Nat.eqb_spec k k'); [congruence | reflexivity].
    + now rewrite IH.
Qed.
End ObjFacts.

Arguments obj_keys : simpl never.
Arguments obj_delete : simpl never.

(** ** Reachable states are well formed *)

Ltac wf_intro H :=
  let H1 := fresh "Hpend" in let H2 := fresh "Hcbs" in
  let H3 := fresh "Hbat" in let H4 := fresh "Hinv" in
  let H5 := fresh "Hthen" in
  destruct H as [H1 H2 H3 H4 H5].

Lemma wf_new : wf new_Dispatcher.
Proof.
  split; [constructor; cbn; try tauto; try discriminate; constructor|].
  now intros _.
Qed.

Lemma wf_set_trace d t : wf_core d -> wf_core (set_trace d t).
Proof. intros H. wf_intro H. constructor; cbn; assumption. Qed.

Lemma wf_emit e d : wf_core d -> wf_core (emit e d).
Proof. apply wf_set_trace. Qed.

Lemma wf_settle h o d : wf_core d -> wf_core (settle h o d).
Proof. apply wf_set_trace. Qed.

Lemma wf_set_dispatchingId d i : wf_core d -> wf_core (set_dispatchingId d i).
Proof. intros H. wf_intro H. constructor; cbn; assumption. Qed.

Lemma wf_set_openPromises d o : wf_core d -> wf_core (set_openPromises d o).
Proof. intros H. wf_intro H. constructor; cbn; assumption. Qed.

Lemma wf_set_isDispatching d f : wf_core d -> wf_core (set_isDispatching d f).
Proof. intros H. wf_intro H. constructor; cbn; assumption. Qed.

Lemma wf_set_queued d q : wf_core d -> wf_core (set_queued d q).
Proof. intros H. wf_intro H. constructor; cbn; assumption. Qed.

Lemma wf_register cb d : wf_core d -> wf_core (snd (register cb d)).
Proof.
  intros H. wf_intro H. constructor; cbn; try assumption.
  now apply obj_set_NoDup.
Qed.

Lemma wf_unregister i d : wf_core d -> wf_core (unregister i d).
Proof.
  intros H. wf_intro H. constructor; cbn; try assumption.
  rewrite obj_keys_delete. now apply NoDup_filter.
Qed.

Lemma wf_postDispatch idx d : wf_core d -> wf_core (_postDispatch idx d).
Proof.
  intros H. wf_intro H. constructor; cbn; try assumption.
  intros k c Hin. apply Hpend. eapply obj_delete_In, Hin.
Qed.

Lemma wf_new_promise d : wf_core d -> wf_core (snd (new_promise d)).
Proof.
  intros H. wf_intro H. constructor; cbn; try assumption.
  - intros b Hb. specialize (Hbat b Hb). lia.
  - intros a b Hab. specialize (Hthen a b Hab). lia.
Qed.

Lemma wf_dispatchBatch {V} (o : obj V) d :
  wf_core d -> wf_core (snd (_dispatchBatch o d)).
Proof.
  intros H. wf_intro H. constructor; cbn; try assumption.
  - intros b [Hb| [<-|[]]]%in_app_or; [specialize (Hbat b Hb); lia | cbn; lia].
  - intros b inv idx rest [Hb| [<-|[]]]%in_app_or; [now apply Hinv | discriminate].
  - intros a b Hab. specialize (Hthen a b Hab). lia.
Qed.

Lemma fold_obj_set_closures p (ks : list id) (o : obj closure) :
  (forall k c, In (k, c) o -> c_idx c = k) ->
  forall k c,
    In (k, c) (fold_left (fun pend idx =>
                 obj_set idx {| c_idx := idx; c_payload := p |} pend) ks o) ->
    c_idx c = k.
Proof.
  revert o. induction ks as [|i ks IH]; cbn; intros o Ho k c; [apply Ho|].
  apply IH. intros k' c' [E|Hin]%obj_set_In; [now inversion E | now apply Ho].
Qed.

Lemma dispatch_promise p d : fst (dispatch p d) = promises d.
Proof. unfold dispatch. now destruct (truthy (_isDispatching d)). Qed.

Lemma dispatch_promises p d :
  promises (snd (dispatch p d)) = S (promises d).
Proof. unfold dispatch. now destruct (truthy (_isDispatching d)). Qed.

Lemma dispatch_sets_flag p d :
  truthy (_isDispatching (snd (dispatch p d))) = true.
Proof. unfold dispatch. now destruct (truthy (_isDispatching d)) eqn:E. Qed.

Lemma wf_dispatch p d : wf_core d -> wf_core (snd (dispatch p d)).
Proof.
  intros H. unfold dispatch.
  destruct (truthy (_isDispatching d)) eqn:Hflag.
  - wf_intro H. constructor; cbn; try assumption.
    + intros b Hb. specialize (Hbat b Hb). lia.
    + intros a b Hab. specialize (Hthen a b Hab). lia.
  - apply wf_dispatchBatch.
    wf_intro H. constructor; cbn; try assumption.
    apply fold_obj_set_closures. intros k c [].
Qed.

Lemma wf_drain d : wf_core d -> wf_core (_drain d).
Proof.
  intros H. unfold _drain.
  destruct (_queued d) as [|[p q] rest]; [exact H|].
  pose proof (wf_dispatch p _ (wf_set_queued d rest H)) as Hd2.
  pose proof (dispatch_promise p (set_queued d rest)) as Hh.
  pose proof (dispatch_promises p (set_queued d rest)) as Hn.
  destruct (dispatch p (set_queued d rest)) as [h d2]. cbn in *.
  wf_intro Hd2. constructor; cbn; try assumption.
  intros a b [[= <- <-]|Hab]; [lia | exact (Hthen _ _ Hab)].
Qed.

Lemma idle_drain d :
  _isDispatching d = Some false -> idle_queue (_drain d).
Proof.
  intros Hflag. unfold _drain.
  destruct (_queued d) as [|[p q] rest] eqn:Hq; [now intros _|].
  pose proof (dispatch_sets_flag p (set_queued d rest)) as Hf.
  destruct (dispatch p (set_queued d rest)) as [h d2]. cbn in *.
  unfold idle_queue. cbn. congruence.
Qed.

Lemma wf_stopDispatching d : wf_core d -> wf (_stopDispatching d).
Proof.
  intros H. unfold _stopDispatching. split.
  - now apply wf_drain, wf_set_isDispatching, wf_emit.
  - now apply idle_drain.
Qed.

Lemma wf_remove_batch h d : wf_core d -> wf_core (remove_batch h d).
Proof.
  intros H. wf_intro H. constructor; cbn; try assumption.
  - intros b [Hb _]%filter_In. now apply Hbat.
  - intros b inv idx rest [Hb _]%filter_In. now apply Hinv.
Qed.

Lemma wf_using_done h o d : wf_core d -> wf (using_done h o d).
Proof.
  intros H. unfold using_done, _batchPromise_disposer.
  destruct (wf_stopDispatching
              (set_dispatchingId (remove_batch h d) None)) as [Hc Hi].
  { now apply wf_set_dispatchingId, wf_remove_batch. }
  split; [now apply wf_settle | exact Hi].
Qed.

Lemma wf_invoke h inv idx rest f p d :
  inv = invocations d ->
  wf_core d ->
  wf_core (set_batch_state h (Awaiting inv idx rest)
             (emit (Invoke inv idx f p) (set_invocations d (S inv)))).
Proof.
  intros -> H. wf_intro H. constructor; cbn; try assumption.
  - intros b (b0 & <- & Hb0)%in_map_iff.
    destruct (Nat.eqb_spec h (b_promise b0)) as [->|_]; cbn; now apply Hbat.
  - intros b inv idx' rest' (b0 & <- & Hb0)%in_map_iff.
    destruct (Nat.eqb_spec h (b_promise b0)) as [->|_]; cbn.
    + intros [= <- _ _]. lia.
    + intros E. specialize (Hinv _ _ _ _ Hb0 E). lia.
Qed.

Lemma wf_dispatchBatch_each h idxs d : wf d -> wf (_dispatchBatch_each h idxs d).
Proof.
  revert d. induction idxs as [|idx rest IH]; intros d [H Hi]; cbn.
  - now apply wf_using_done.
  - destruct (obj_get idx (_pending d)) as [c|].
    + unfold call_closure; cbn.
      destruct (obj_get (c_idx c) (_callbacks d)) as [f|].
      * split; [|exact Hi].
        apply (wf_invoke h (invocations d) idx rest f (c_payload c)
                 (set_openPromises (set_dispatchingId d (Some idx))
                    (_openPromises d ++ [idx])));
          [reflexivity|].
        now apply wf_set_openPromises, wf_set_dispatchingId.
      * apply IH. split; [|exact Hi].
        now apply wf_postDispatch, wf_set_openPromises, wf_set_dispatchingId.
    + apply IH. split; [|exact Hi].
      now apply wf_postDispatch, wf_set_openPromises, wf_set_dispatchingId.
Qed.

Lemma wf_job_settled h idx rest o d : wf d -> wf (job_settled h idx rest o d).
Proof.
  intros [H Hi]. unfold job_settled. destruct o.
  - apply wf_dispatchBatch_each. split; [now apply wf_postDispatch | exact Hi].
  - now apply wf_using_done, wf_postDispatch.
Qed.

Lemma wf_waitFor ids d : wf d -> wf (snd (waitFor ids d)).
Proof.
  intros [H Hi]. unfold waitFor, promiseMethod, waitFor_method.
  destruct (truthy (_isDispatching d)) eqn:Hflag; cbn.
  - destruct (waitFor_forEach d ids []) as [pending|m].
    + destruct (obj_keys pending).
      * cbn. split; [|exact Hi]. apply wf_settle. now apply (wf_new_promise d).
      * split; [now apply wf_dispatchBatch | exact Hi].
    + cbn. split; [|exact Hi]. apply wf_settle. now apply (wf_new_promise d).
  - split; [|exact Hi]. apply wf_settle. now apply (wf_new_promise d).
Qed.

Lemma wf_step c d : wf d -> wf (step c d).
Proof.
  intros H. destruct c as [cb|i|p|ids|h|inv o]; cbn.
  - destruct H as [H Hi]. split; [now apply wf_register | exact Hi].
  - destruct H as [H Hi]. split; [now apply wf_unregister | exact Hi].
  - destruct H as [H Hi]. split; [now apply wf_dispatch|].
    intros E. now rewrite dispatch_sets_flag in E.
  - now apply wf_waitFor.
  - destruct (find_created h d); [now apply wf_dispatchBatch_each | exact H].
  - destruct (find (awaits inv) (batches d)) as [[h [idxs|inv' idx rest]]|];
      try exact H.
    apply wf_job_settled. destruct H as [H Hi].
    split; [now apply wf_emit | exact Hi].
Qed.

Lemma wf_run cs d : wf d -> wf (run cs d).
Proof.
  revert d. induction cs as [|c cs IH]; intros d H; cbn; [exact H|].
  apply IH, wf_step, H.
Qed.

Lemma wf_reachable cs : wf (run cs new_Dispatcher).
Proof. apply wf_run, wf_new. Qed.

(** ** Promises made by the dispatcher are fresh *)

Lemma followers_fresh ls h :
  (forall a b, In (a, b) ls -> a <> h) -> followers ls [h] = [h].
Proof.
  induction ls as [|[a b] ls IH]; intros Hls; cbn; [reflexivity|].
  destruct (Nat.eqb_spec a h) as [E|_]; cbn.
  - exfalso. apply (Hls a b); [now left | exact E].
  - apply IH. intros a' b' Hin. apply (Hls a' b'). now right.
Qed.

Lemma followers_head ls hs h : In h hs -> In h (followers ls hs).
Proof.
  revert hs. induction ls as [|[a b] ls IH]; intros hs Hin; cbn; [exact Hin|].
  destruct (existsb (Nat.eqb a) hs); apply IH; [|exact Hin].
  apply in_or_app. now left.
Qed.

Lemma settle_fresh o d :
  wf_core d ->
  trace (settle (promises d) o (snd (new_promise d))) =
  trace d ++ [Settled (promises d) o].
Proof.
  intros H. unfold settle. cbn. rewrite followers_fresh; [reflexivity|].
  intros a b Hab E. pose proof (wf_thens d H a b Hab). lia.
Qed.

(** ** Printing identifiers *)

Lemma string_length_append (s t : string) :
  String.length (s ++ t)%string = String.length s + String.length t.
Proof. induction s as [|c s IH]; cbn; [reflexivity | now rewrite IH]. Qed.

Lemma string_append_cancel_r (s1 s2 t : string) :
  (s1 ++ t)%string = (s2 ++ t)%string -> s1 = s2.
Proof.
  revert s2. induction s1 as [|c s1 IH]; intros [|c2 s2] E; cbn in E.
  - reflexivity.
  - apply (f_equal String.length) in E. cbn in E.
    rewrite string_length_append in E. lia.
  - apply (f_equal String.length) in E. cbn in E.
    rewrite string_length_append in E. lia.
  - injection E as -> E. f_equal. now apply IH.
Qed.

Lemma decimal_inj i j :
  NilEmpty.string_of_uint (Nat.to_uint i) = NilEmpty.string_of_uint (Nat.to_uint j) ->
  i = j.
Proof.
  intros E. apply (f_equal NilEmpty.uint_of_string) in E.
  rewrite !NilEmpty.usu in E. injection E as E.
  apply (f_equal Nat.of_uint) in E.
  now rewrite !DecimalNat.Unsigned.of_to in E.
Qed.

Lemma id_string_inj i j : id_string i = id_string j -> i = j.
Proof.
  unfold id_string, _prefix. cbn. intros [= E]. now apply decimal_inj.
Qed.

Lemma unknown_id_error_inj i j : unknown_id_error i = unknown_id_error j -> i = j.
Proof.
  unfold unknown_id_error. cbn. intros [= E].
  eapply decimal_inj, string_append_cancel_r, E.
Qed.

(** ** waitFor *)

Lemma waitFor_throw ids d m :
  waitFor_method ids d = Throw m ->
  waitFor ids d =
  (promises d, settle (promises d) (Rejected m) (snd (new_promise d))).
Proof. intros E. unfold waitFor, promiseMethod. now rewrite E. Qed.

Lemma waitFor_forEach_unknown d pre i post pending :
  Forall (fun j => registered j d /\ ~ open j d) pre ->
  ~ registered i d ->
  waitFor_forEach d (pre ++ i :: post) pending = Throw (unknown_id_error i).
Proof.
  intros Hpre Hi. revert pending.
  induction Hpre as [|j pre [Hreg Hopen] _ IH]; intros pending; cbn.
  - unfold registered in Hi. destruct (obj_get i (_callbacks d)); [|reflexivity].
    exfalso. apply Hi. discriminate.
  - unfold registered in Hreg. destruct (obj_get j (_callbacks d)); [|congruence].
    destruct (existsb (Nat.eqb j) (_openPromises d)) eqn:E.
    + apply existsb_eqb_In in E. contradiction.
    + destruct (obj_get j (_pending d)); apply IH.
Qed.


Lemma waitFor_failure_frame ids d m :
  waitFor_method ids d = Throw m ->
  _pending (snd (waitFor ids d)) = _pending d /\
  _openPromises (snd (waitFor ids d)) = _openPromises d /\
  batches (snd (waitFor ids d)) = batches d /\
  _isDispatching (snd (waitFor ids d)) = _isDispatching d /\
  _queued (snd (waitFor ids d)) = _queued d /\
  _callbacks (snd (waitFor ids d)) = _callbacks d.
Proof. intros E. rewrite (waitFor_throw ids d m E). now repeat split. Qed.

(** C8 (as amended).  A call [waitFor(ids)] made while the dispatching
    flag is set, in which an identifier [i] without registration comes
    after registered identifiers only, none of them in the open set,
    rejects with the message that names [i] (and no other identifier);
    and a call of [waitFor] that fails, for whatever reason, leaves the
    pending map, the open set, the batches in flight, the flag, the
    queue and the registrations as they were. *)
Theorem waitFor_unknown_id d pre i post :
  wf d ->
  truthy (_isDispatching d) = true ->
  Forall (fun j => registered j d /\ ~ open j d) pre ->
  ~ registered i d ->
  let r := waitFor (pre ++ i :: post) d in
  fst r = promises d /\
  trace (snd r) = trace d ++ [Settled (promises d) (Rejected (unknown_id_error i))] /\
  (forall j, unknown_id_error j = unknown_id_error i -> j = i) /\
  (forall ids m,
      waitFor_method ids d = Throw m ->
      _pending (snd (waitFor ids d)) = _pending d /\
      _openPromises (snd (waitFor ids d)) = _openPromises d /\
      batches (snd (waitFor ids d)) = batches d /\
      _isDispatching (snd (waitFor ids d)) = _isDispatching d /\
      _queued (snd (waitFor ids d)) = _queued d /\
      _callbacks (snd (waitFor ids d)) = _callbacks d).
Proof.
  intros [Hwf _] Hflag Hpre Hi r. subst r.
  rewrite (waitFor_throw _ d (unknown_id_error i)).
  - cbn [fst snd]. rewrite settle_fresh by exact Hwf.
    split; [reflexivity|]. split; [reflexivity|]. split.
    + intros j. apply unknown_id_error_inj.
    + intros ids m. apply waitFor_failure_frame.
  - unfold waitFor_method. rewrite Hflag. cbn.
    now rewrite waitFor_forEach_unknown.
Qed.

(** ** What a step leaves alone *)

Lemma same_registry_refl d : same_registry d d.
Proof. now split. Qed.

Lemma same_registry_trans d1 d2 d3 :
  same_registry d1 d2 -> same_registry d2 d3 -> same_registry d1 d3.
Proof. intros [A B] [C D]. split; congruence. Qed.

Lemma dispatch_registry p d : same_registry d (snd (dispatch p d)).
Proof. unfold dispatch. now destruct (truthy (_isDispatching d)). Qed.

Lemma dispatch_trace p d : trace (snd (dispatch p d)) = trace d.
Proof. unfold dispatch. now destruct (truthy (_isDispatching d)). Qed.

Lemma drain_registry d : same_registry d (_drain d).
Proof.
  unfold _drain. destruct (_queued d) as [|[p q] rest]; [apply same_registry_refl|].
  pose proof (dispatch_registry p (set_queued d rest)) as H.
  now destruct (dispatch p (set_queued d rest)).
Qed.

Lemma drain_trace d : trace (_drain d) = trace d.
Proof.
  unfold _drain. destruct (_queued d) as [|[p q] rest]; [reflexivity|].
  pose proof (dispatch_trace p (set_queued d rest)) as H.
  now destruct (dispatch p (set_queued d rest)).
Qed.

Lemma drain_empty d : _queued d = [] -> _drain d = d.
Proof. intros E. unfold _drain. now rewrite E. Qed.

Lemma using_done_registry h o d : same_registry d (using_done h o d).
Proof.
  unfold using_done, _batchPromise_disposer, _stopDispatching, settle.
  destruct (drain_registry
              (set_isDispatching
                 (emit Stop (set_dispatchingId (remove_batch h d) None))
                 (Some false))) as [A B].
  split; cbn; [rewrite A | rewrite B]; reflexivity.
Qed.

Lemma using_done_invoke h o d inv i f p :
  In (Invoke inv i f p) (trace (using_done h o d)) ->
  In (Invoke inv i f p) (trace d).
Proof.
  unfold using_done, _batchPromise_disposer, _stopDispatching, settle. cbn.
  rewrite drain_trace. cbn.
  intros [[Hin|[E|[]]]%in_app_or | (q & E & _)%in_map_iff]%in_app_or;
    [exact Hin | discriminate | discriminate].
Qed.

Lemma obj_get_delete_Some {V} (o : obj V) i k v :
  obj_get k (obj_delete i o) = Some v -> obj_get k o = Some v.
Proof.
  destruct (Nat.eq_dec i k) as [->|Hne].
  - now rewrite obj_get_delete.
  - now rewrite obj_get_delete_other.
Qed.

Lemma each_registry h idxs d : same_registry d (_dispatchBatch_each h idxs d).
Proof.
  revert d. induction idxs as [|idx rest IH]; intros d; cbn.
  - apply using_done_registry.
  - destruct (obj_get idx (_pending d)) as [c|].
    + unfold call_closure; cbn.
      destruct (obj_get (c_idx c) (_callbacks d)) as [f|]; [now split|].
      eapply same_registry_trans; [|apply IH]. now split.
    + eapply same_registry_trans; [|apply IH]. now split.
Qed.

(** A callback is invoked by a batch only for an identifier of its list
    that has a pending entry, and it is the callback registered under
    the identifier the entry was made for. *)
Lemma each_invoke h idxs d inv i f p :
  In (Invoke inv i f p) (trace (_dispatchBatch_each h idxs d)) ->
  In (Invoke inv i f p) (trace d) \/
  exists c, obj_get i (_pending d) = Some c /\
            obj_get (c_idx c) (_callbacks d) = Some f /\
            c_payload c = p /\ In i idxs.
Proof.
  revert d. induction idxs as [|idx rest IH]; intros d; cbn.
  - intros H. left. eapply using_done_invoke, H.
  - destruct (obj_get idx (_pending d)) as [c|] eqn:Hc.
    + unfold call_closure; cbn.
      destruct (obj_get (c_idx c) (_callbacks d)) as [g|] eqn:Hg.
      * cbn. intros [Hin|[[= _ <- <- <-]|[]]]%in_app_or; [now left|].
        right. exists c. auto.
      * intros [Hin|(c' & Hc' & Hg' & Hp & Hin)]%IH; [now left|].
        right. exists c'. cbn in *.
        repeat split; auto. eapply obj_get_delete_Some, Hc'.
    + intros [Hin|(c' & Hc' & Hg' & Hp & Hin)]%IH; [now left|].
      right. exists c'. cbn in *.
        repeat split; auto. eapply obj_get_delete_Some, Hc'.
Qed.

Lemma job_settled_registry h idx rest o d :
  same_registry d (job_settled h idx rest o d).
Proof.
  unfold job_settled. destruct o.
  - eapply same_registry_trans; [|apply each_registry]. now split.
  - eapply same_registry_trans; [|apply using_done_registry]. now split.
Qed.

Lemma job_settled_invoke h idx rest o d inv i f p :
  In (Invoke inv i f p) (trace (job_settled h idx rest o d)) ->
  In (Invoke inv i f p) (trace d) \/
  exists c, obj_get i (_pending d) = Some c /\
            obj_get (c_idx c) (_callbacks d) = Some f /\
            i <> idx.
Proof.
  unfold job_settled. destruct o.
  - intros [Hin|(c & Hc & Hg & _ & _)]%each_invoke; [now left|].
    right. exists c. cbn in *. split; [|split].
    + eapply obj_get_delete_Some, Hc.
    + exact Hg.
    + intros ->. now rewrite obj_get_delete in Hc.
  - intros H. left. eapply using_done_invoke in H. exact H.
Qed.

Lemma waitFor_registry ids d : same_registry d (snd (waitFor ids d)).
Proof.
  unfold waitFor, promiseMethod, waitFor_method.
  destruct (truthy (_isDispatching d)); cbn; [|now split].
  destruct (waitFor_forEach d ids []) as [pending|m]; [|now split].
  now destruct (obj_keys pending).
Qed.

Lemma waitFor_invoke ids d inv i f p :
  In (Invoke inv i f p) (trace (snd (waitFor ids d))) ->
  In (Invoke inv i f p) (trace d).
Proof.
  assert (Hs : forall h o d0, trace d0 = trace d ->
             In (Invoke inv i f p) (trace (settle h o d0)) ->
             In (Invoke inv i f p) (trace d)).
  { intros h o d0 E. unfold settle. cbn. rewrite E.
    intros [Hin|(q & Hq & _)%in_map_iff]%in_app_or; [exact Hin | discriminate]. }
  unfold waitFor, promiseMethod, waitFor_method.
  destruct (truthy (_isDispatching d)); cbn; [|now apply Hs].
  destruct (waitFor_forEach d ids []) as [pending|m]; [|now apply Hs].
  destruct (obj_keys pending); [now apply Hs | auto].
Qed.

Lemma find_awaits_state inv bs h s :
  find (awaits inv) bs = Some {| b_promise := h; b_state := s |} ->
  exists idx rest, s = Awaiting inv idx rest.
Proof.
  intros [_ E]%find_some. unfold awaits in E. cbn in E.
  destruct s as [|inv' idx rest]; [discriminate|].
  apply Nat.eqb_eq in E. subst. eauto.
Qed.

(** ** After unregister *)

Lemma gone_same_registry i d d' :
  same_registry d d' -> wf d' -> gone i d -> gone i d'.
Proof.
  intros [A B] Hwf (_ & Hc & Hl). unfold gone. rewrite A, B. auto.
Qed.

Lemma gone_closure i d c f :
  gone i d -> obj_get i (_pending d) = Some c ->
  obj_get (c_idx c) (_callbacks d) = Some f -> False.
Proof.
  intros ([Hwf _] & Hc & _) Hp Hf.
  rewrite (wf_pending d Hwf i c) in Hf by now apply obj_get_In.
  congruence.
Qed.

Lemma gone_step i c d :
  gone i d -> gone i (step c d) /\ no_new_invoke i d (step c d).
Proof.
  intros Hg. pose proof Hg as (Hwf & Hc & Hl).
  pose proof (wf_step c d Hwf) as Hwf'.
  destruct c as [cb|j|p|ids|h|inv o]; cbn in *.
  - split; [|now intros ? ? ?].
    split; [exact Hwf'|]. cbn. split; [|lia].
    rewrite obj_get_set_other by lia. exact Hc.
  - split; [|now intros ? ? ?].
    split; [exact Hwf'|]. cbn. split; [|exact Hl].
    now apply obj_get_delete_None.
  - split.
    + eapply gone_same_registry; eauto using dispatch_registry.
    + intros ? ? ?. now rewrite dispatch_trace.
  - split.
    + eapply gone_same_registry; eauto using waitFor_registry.
    + intros ? ? ?. apply waitFor_invoke.
  - destruct (find_created h d) as [idxs|]; [|split; [exact Hg | now intros ? ? ?]].
    split.
    + eapply gone_same_registry; eauto using each_registry.
    + intros inv f p [Hin|(c & Hp & Hf & _)]%each_invoke; [exact Hin|].
      exfalso. eapply gone_closure; eauto.
  - destruct (find (awaits inv) (batches d)) as [[h [idxs|inv' idx rest]]|];
      try (split; [exact Hg | now intros ? ? ?]).
    split.
    + eapply gone_same_registry; [|exact Hwf'|exact Hg].
      eapply same_registry_trans; [|apply job_settled_registry]. now split.
    + intros inv0 f p [Hin|(c & Hp & Hf & _)]%job_settled_invoke.
      * cbn in Hin. apply in_app_or in Hin as [Hin|[E|[]]];
          [exact Hin | discriminate].
      * exfalso. eapply gone_closure; eauto.
Qed.

Lemma gone_run i cs d :
  gone i d -> no_new_invoke i d (run cs d).
Proof.
  revert d. induction cs as [|c cs IH]; intros d Hg; cbn; [now intros ? ? ?|].
  destruct (gone_step i c d Hg) as [Hg' Hn].
  intros inv f p Hin. apply Hn. eapply IH; eauto.
Qed.

Lemma filter_idem {A} (g : A -> bool) l : filter g (filter g l) = filter g l.
Proof.
  induction l as [|a l IH]; cbn; [reflexivity|].
  destruct (g a) eqn:E; cbn; [rewrite E, IH|]; auto.
Qed.

Lemma filter_all {A} (g : A -> bool) l :
  (forall a, In a l -> g a = true) -> filter g l = l.
Proof.
  induction l as [|a l IH]; cbn; intros H; [reflexivity|].
  rewrite (H a) by now left. f_equal. apply IH. intros b Hb. apply H. now right.
Qed.

(** C9.  Once [unregister(i)] has run for an identifier [i] that
    [register] has issued, no later call invokes the callback of [i]
    again, whatever calls follow and also when the pending map still has
    an entry for [i]; and [unregister] is idempotent: a second
    [unregister(i)], or the [unregister] of an identifier without
    registration, changes nothing. *)
Theorem unregister_stops_invocations d i cs :
  wf d ->
  i < _lastID d ->
  (forall inv f p,
      In (Invoke inv i f p) (trace (run cs (unregister i d))) ->
      In (Invoke inv i f p) (trace d)) /\
  unregister i (unregister i d) = unregister i d /\
  (~ registered i d -> unregister i d = d).
Proof.
  intros Hwf Hl. split; [|split].
  - apply (gone_run i cs (unregister i d)).
    split; [|split].
    + destruct Hwf as [Hc Hi]. split; [now apply wf_unregister | exact Hi].
    + cbn. apply obj_get_delete.
    + exact Hl.
  - unfold unregister. cbn. unfold obj_delete. now rewrite filter_idem.
  - intros Hr. unfold unregister, obj_delete. rewrite filter_all.
    + now destruct d.
    + intros [k v] Hin. cbn. destruct (Nat.eqb_spec i k) as [->|_]; [|reflexivity].
      exfalso. apply Hr. unfold registered.
      apply obj_get_keys, in_map_iff. now exists (k, v).
Qed.

(** ** Within one broadcast *)

Lemma using_done_consumed idx h o d :
  consumed idx d -> consumed idx (using_done h o d).
Proof.
  intros [Hp Hq]. unfold using_done, _batchPromise_disposer, _stopDispatching.
  rewrite drain_empty by exact Hq. now split.
Qed.

Lemma each_consumed idx h idxs d :
  consumed idx d -> consumed idx (_dispatchBatch_each h idxs d).
Proof.
  revert d. induction idxs as [|k rest IH]; intros d [Hp Hq]; cbn.
  - now apply using_done_consumed.
  - assert (Hpost : consumed idx
             (_postDispatch k (set_openPromises (set_dispatchingId d (Some k))
                                 (_openPromises d ++ [k])))).
    { split; cbn; [now apply obj_get_delete_None | exact Hq]. }
    destruct (obj_get k (_pending d)) as [c|]; [|now apply IH].
    unfold call_closure; cbn.
    destruct (obj_get (c_idx c) (_callbacks d)) as [f|]; [now split | now apply IH].
Qed.

Lemma job_settled_consumed idx h k rest o d :
  consumed idx d -> consumed idx (job_settled h k rest o d).
Proof.
  intros [Hp Hq]. unfold job_settled.
  assert (Hpost : consumed idx (_postDispatch k d)).
  { split; cbn; [now apply obj_get_delete_None | exact Hq]. }
  destruct o; [now apply each_consumed | now apply using_done_consumed].
Qed.

Lemma waitFor_consumed idx ids d :
  consumed idx d -> consumed idx (snd (waitFor ids d)).
Proof.
  intros Hc. unfold waitFor, promiseMethod, waitFor_method.
  destruct (truthy (_isDispatching d)); cbn; [|exact Hc].
  destruct (waitFor_forEach d ids []) as [pending|m]; [|exact Hc].
  now destruct (obj_keys pending).
Qed.

Lemma consumed_step idx c d :
  no_dispatch c -> consumed idx d ->
  consumed idx (step c d) /\ no_new_invoke idx d (step c d).
Proof.
  intros Hnd Hc. destruct c as [cb|j|p|ids|h|inv o]; cbn in *.
  - split; [exact Hc | now intros ? ? ?].
  - split; [exact Hc | now intros ? ? ?].
  - contradiction.
  - split; [now apply waitFor_consumed | intros ? ? ?; apply waitFor_invoke].
  - destruct (find_created h d) as [idxs|]; [|split; [exact Hc | now intros ? ? ?]].
    split; [now apply each_consumed|].
    intros inv f p [Hin|(c & Hp & _)]%each_invoke; [exact Hin|].
    destruct Hc as [Hc _]. congruence.
  - destruct (find (awaits inv) (batches d)) as [[h [idxs|inv' k rest]]|];
      try (split; [exact Hc | now intros ? ? ?]).
    split; [now apply job_settled_consumed|].
    intros inv0 f p [Hin|(c & Hp & _)]%job_settled_invoke.
    + cbn in Hin. apply in_app_or in Hin as [Hin|[E|[]]];
        [exact Hin | discriminate].
    + destruct Hc as [Hc _]. cbn in Hp. congruence.
Qed.

Lemma consumed_run idx cs d :
  Forall no_dispatch cs -> consumed idx d -> no_new_invoke idx d (run cs d).
Proof.
  intros Hcs. revert d.
  induction Hcs as [|c cs Hc _ IH]; intros d Hd; cbn; [now intros ? ? ?|].
  destruct (consumed_step idx c d Hc Hd) as [Hd' Hn].
  intros inv f p Hin. apply Hn. eapply IH; eauto.
Qed.

Lemma consumed_stays idx cs : forall d,
  Forall no_dispatch cs -> consumed idx d -> consumed idx (run cs d).
Proof.
  induction cs as [|c cs IH]; intros d Hcs Hd; cbn; [exact Hd|].
  inversion Hcs as [|? ? Hc Hcs']; subst.
  apply IH; [exact Hcs'|]. now apply consumed_step.
Qed.

(** C7 (as amended).  While no other broadcast starts (nothing is queued
    and [dispatch] is not called), once an invocation of the callback of
    [idx] has settled no batch invokes that callback again, whatever
    calls follow: the pending entry of [idx] stays removed; and a batch
    whose loop reaches an identifier without pending entry does not
    invoke it but still runs its cleanup. *)
Theorem settled_job_not_invoked_again d inv o h idx rest cs :
  find (awaits inv) (batches d) =
    Some {| b_promise := h; b_state := Awaiting inv idx rest |} ->
  _queued d = [] ->
  Forall no_dispatch cs ->
  (forall inv' f p,
      In (Invoke inv' idx f p) (trace (run cs (step (Settle inv o) d))) ->
      In (Invoke inv' idx f p) (trace d)) /\
  obj_get idx (_pending (run cs (step (Settle inv o) d))) = None /\
  (forall h' rest' d',
      obj_get idx (_pending d') = None ->
      _dispatchBatch_each h' (idx :: rest') d' =
      _dispatchBatch_each h' rest'
        (_postDispatch idx
           (set_openPromises (set_dispatchingId d' (Some idx))
              (_openPromises d' ++ [idx])))).
Proof.
  intros Hfind Hq Hcs.
  assert (Hpost : consumed idx (_postDispatch idx (emit (Return inv o) d))).
  { split; cbn; [apply obj_get_delete | exact Hq]. }
  assert (Hstep : consumed idx (step (Settle inv o) d)).
  { cbn. rewrite Hfind. unfold job_settled.
    destruct o; [now apply each_consumed | now apply using_done_consumed]. }
  split; [|split].
  - intros inv' f p Hin.
    apply (consumed_run idx cs) in Hin; [|exact Hcs|exact Hstep].
    cbn in Hin. rewrite Hfind in Hin.
    apply job_settled_invoke in Hin as [Hin|(c & _ & _ & Hne)]; [|congruence].
    cbn in Hin. apply in_app_or in Hin as [Hin|[E|[]]];
      [exact Hin | discriminate].
  - now apply (consumed_stays idx cs).
  - intros h' rest' d' Hp. cbn. now rewrite Hp.
Qed.

(** ** One broadcast, from [dispatch] to its outcome *)

Lemma find_app_skip {A} (g : A -> bool) l l' :
  (forall a, In a l -> g a = false) -> find g (l ++ l') = find g l'.
Proof.
  induction l as [|a l IH]; cbn; intros H; [reflexivity|].
  rewrite (H a) by now left. apply IH. intros b Hb. apply H. now right.
Qed.

Lemma batch_fresh d b : wf_core d -> In b (batches d) ->
  Nat.eqb (promises d) (b_promise b) = false.
Proof.
  intros H Hb. apply Nat.eqb_neq. pose proof (wf_batches d H b Hb). lia.
Qed.

Lemma find_created_dispatchBatch {V} (o : obj V) d :
  wf_core d ->
  find_created (promises d) (snd (_dispatchBatch o d)) = Some (obj_keys o).
Proof.
  intros H. unfold find_created, _dispatchBatch. cbn.
  rewrite find_app_skip by (intros b Hb; now apply batch_fresh).
  cbn. now rewrite Nat.eqb_refl.
Qed.

Lemma remove_batch_dispatchBatch {V} (o : obj V) d :
  wf_core d ->
  batches (remove_batch (promises d) (snd (_dispatchBatch o d))) = batches d.
Proof.
  intros H. unfold remove_batch, _dispatchBatch. cbn.
  rewrite filter_app. cbn. rewrite Nat.eqb_refl. cbn. rewrite app_nil_r.
  apply filter_all. intros b Hb. now rewrite batch_fresh.
Qed.

Lemma dispatch_start p d :
  truthy (_isDispatching d) = false ->
  dispatch p d = _dispatchBatch (_callbacks d) (opened p d).
Proof. intros E. unfold dispatch. now rewrite E. Qed.

Lemma wf_opened p d : wf_core d -> wf_core (opened p d).
Proof.
  intros H. destruct H. constructor; cbn; try assumption.
  apply fold_obj_set_closures. intros k c [].
Qed.

Lemma each_invokes h k rest d c f :
  obj_get k (_pending d) = Some c ->
  obj_get (c_idx c) (_callbacks d) = Some f ->
  _dispatchBatch_each h (k :: rest) d = invoke_state h k rest f (c_payload c) d.
Proof.
  intros Hc Hf. cbn. rewrite Hc. unfold call_closure. cbn. now rewrite Hf.
Qed.


Lemma map_b_promise_set h s bs :
  map b_promise
    (map (fun b => if Nat.eqb h (b_promise b)
                   then {| b_promise := h; b_state := s |} else b) bs) =
  map b_promise bs.
Proof.
  induction bs as [|b bs IH]; cbn; [reflexivity|]. rewrite IH. f_equal.
  now destruct (Nat.eqb_spec h (b_promise b)).
Qed.



Lemma invoked_app tr tr' : invoked (tr ++ tr') = invoked tr ++ invoked tr'.
Proof. apply flat_map_app. Qed.


Lemma obj_get_set_same {V} (o : obj V) k v : obj_get k (obj_set k v o) = Some v.
Proof.
  induction o as [|[k' v'] o IH]; cbn.
  - now rewrite Nat.eqb_refl.
  - destruct (Nat.eqb_spec k k') as [->|Hne]; cbn.
    + now rewrite Nat.eqb_refl.
    + destruct (Nat.eqb_spec k k'); [congruence | exact IH].
Qed.



(** ** The claims on concrete runs *)

(** C1 (fails on the code).  In [nested_then_queued] the cleanup of the
    batch made by [waitFor] stops dispatching and drains the queue:
    the callback of ID_1 is invoked with payload 2 (invocation 2) while
    its invocation with payload 1 (invocation 0) has not returned. *)
Theorem broadcast_opens_inside_waitFor :
  let d := run nested_then_queued new_Dispatcher in
  trace d = [Invoke 0 1 100 1; Invoke 1 2 101 1; Return 1 Resolved; Stop;
             Settled 1 Resolved; Invoke 2 1 100 2] /\
  interleaves [] (trace d) = true /\
  batches d = [{| b_promise := 0; b_state := Awaiting 0 1 [2] |};
               {| b_promise := 3; b_state := Awaiting 2 1 [2] |}].
Proof. vm_compute. repeat split; reflexivity. Qed.

(** C2 (fails on the code).  In [one_waitFor] the cleanup of the batch
    made by [waitFor] has run the stop-dispatching step and cleared the
    flag while the batch of [dispatch] is still waiting for ID_1; when
    that batch finishes the step runs a second time. *)
Theorem nested_cleanup_stops_dispatching :
  let d := run one_waitFor new_Dispatcher in
  batches d = [{| b_promise := 0; b_state := Awaiting 0 1 [2] |}] /\
  _isDispatching d = Some false /\
  count_stops (trace d) = 1 /\
  count_stops (trace (step (Settle 0 Resolved) d)) = 2.
Proof. vm_compute. repeat split; reflexivity. Qed.


(** C4 (fails on the code).  In [dispatch_after_waitFor] the call
    [dispatch(2)] comes before [dispatch(1)] has settled and is not
    queued: its batch invokes ID_1 with payload 2 while the invocation
    of ID_1 with payload 1 has not returned, and once everything has
    settled ID_3 has never been invoked with payload 1 but twice with
    payload 2. *)
Theorem dispatch_after_waitFor_not_queued :
  let d := run dispatch_after_waitFor new_Dispatcher in
  let d' := run dispatch_after_waitFor_settled new_Dispatcher in
  _queued d = [] /\
  trace d = [Invoke 0 1 100 1; Invoke 1 2 101 1; Return 1 Resolved; Stop;
             Settled 1 Resolved; Invoke 2 1 100 2] /\
  interleaves [] (trace d) = true /\
  invoked (trace d') = [(1, 1); (2, 1); (1, 2); (2, 2); (2, 2); (3, 2); (3, 2)] /\
  batches d' = [].
Proof. vm_compute. repeat split; reflexivity. Qed.


(** The chain of C5: the callback of ID_1 waits for ID_2, whose callback
    waits for ID_1. *)
Example waitFor_chain_is_circular :
  trace (snd (waitFor [1] (run wait_chain new_Dispatcher))) =
  [Invoke 0 1 100 1; Invoke 1 2 101 1; Settled 2 (Rejected circular_error)].
Proof. vm_compute. reflexivity. Qed.

(** After the batch of a first [waitFor] is over the flag is cleared:
    the callback of ID_1, still running, waits for itself and is told
    that no dispatch is going on. *)
Example waitFor_self_after_nested_waitFor :
  let d := run one_waitFor new_Dispatcher in
  trace (snd (waitFor [1] d)) =
  trace d ++ [Settled 2 (Rejected not_dispatching_error)].
Proof. vm_compute. reflexivity. Qed.

(** C6 (fails on the code).  Before any dispatch [isDispatching()] is
    [true]; and in [one_waitFor] it is [false] while the batch of
    [dispatch] still waits for the callback of ID_1. *)
Theorem isDispatching_before_first_dispatch :
  isDispatching new_Dispatcher = true /\
  (let d := run one_waitFor new_Dispatcher in
   isDispatching d = false /\
   batches d = [{| b_promise := 0; b_state := Awaiting 0 1 [2] |}]).
Proof. vm_compute. repeat split; reflexivity. Qed.

(** C7 (as stated, fails).  In [two_waitFors] one broadcast is open, the
    stop-dispatching step has not run, and the callback of ID_3 has been
    invoked twice with the payload of the broadcast. *)
Lemma two_waitFors_invoke_twice :
  let d := run two_waitFors new_Dispatcher in
  invoked (trace d) = [(1, 1); (2, 1); (3, 1); (3, 1)] /\
  count_invocations 3 (trace d) = 2 /\
  count_stops (trace d) = 0.
Proof. vm_compute. repeat split; reflexivity. Qed.

(** C8 (as stated, fails).  During the broadcast of [busy], where ID_1
    is in the open set and ID_9 has no registration, [waitFor([ID_1,
    ID_9])] is rejected with the circular-dependency error; and with no
    broadcast at all [waitFor([ID_9])] is rejected with the
    not-dispatching error.  Neither message names ID_9. *)
Lemma waitFor_unknown_not_named :
  ~ registered 9 busy /\
  trace (snd (waitFor [1; 9] busy)) =
    trace busy ++ [Settled 1 (Rejected circular_error)] /\
  trace (snd (waitFor [9] new_Dispatcher)) =
    [Settled 0 (Rejected not_dispatching_error)] /\
  index 0 (id_string 9) circular_error = None /\
  index 0 (id_string 9) not_dispatching_error = None.
Proof.
  vm_compute. repeat split; try reflexivity. intros H. now apply H.
Qed.

(** ** The theorems at concrete inputs *)


Lemma settled_job_not_invoked_again_witness :
  let d := run wait_chain new_Dispatcher in
  let d' := run [Settle 0 Resolved] (step (Settle 1 Resolved) d) in
  _queued d = [] /\
  (forall inv' f p,
      In (Invoke inv' 2 f p) (trace d') -> In (Invoke inv' 2 f p) (trace d)) /\
  obj_get 2 (_pending d') = None /\
  trace d' = trace d ++ [Return 1 Resolved; Stop; Settled 1 Resolved;
                         Return 0 Resolved; Stop; Settled 0 Resolved] /\
  count_invocations 2 (trace d') = 1 /\
  batches d' = [].
Proof.
  cbv zeta. split; [vm_compute; reflexivity|].
  destruct (settled_job_not_invoked_again (run wait_chain new_Dispatcher)
              1 Resolved 1 2 [] [Settle 0 Resolved]) as (H1 & H2 & _).
  - vm_compute. reflexivity.
  - vm_compute. reflexivity.
  - repeat constructor.
  - split; [exact H1|]. split; [exact H2|].
    vm_compute. repeat split; reflexivity.
Defined.

Lemma waitFor_unknown_id_witness :
  truthy (_isDispatching busy) = true /\
  trace (snd (waitFor [2; 9; 1] busy)) =
  trace busy ++ [Settled (promises busy) (Rejected (unknown_id_error 9))].
Proof.
  split; [reflexivity|].
  apply (waitFor_unknown_id busy [2] 9 [1]).
  - apply wf_reachable.
  - reflexivity.
  - constructor; [|constructor]. split; [discriminate|].
    intros [H|[]]. discriminate.
  - intros H. now apply H.
Defined.

Lemma unregister_stops_invocations_witness :
  2 < _lastID busy /\
  obj_get 2 (_pending busy) = Some {| c_idx := 2; c_payload := 1 |} /\
  (forall inv f p,
      In (Invoke inv 2 f p)
         (trace (run [Settle 0 Resolved; Dispatch 2; RunBatch 1; Settle 1 Resolved]
                   (unregister 2 busy))) ->
      In (Invoke inv 2 f p) (trace busy)).
Proof.
  split; [exact (le_n 3)|]. split; [reflexivity|].
  apply (unregister_stops_invocations busy 2
           [Settle 0 Resolved; Dispatch 2; RunBatch 1; Settle 1 Resolved]).
  - apply wf_reachable.
  - exact (le_n 3).
Defined.

(** * The rest of the class *)

(** ** Identifiers *)

Lemma Forall_lt_mono (n m : nat) (l : list nat) :
  n <= m -> Forall (fun k => k < n) l -> Forall (fun k => k < m) l.
Proof.
  intros Hnm H. eapply Forall_impl; [|exact H]. cbn. intros k Hk. lia.
Qed.

Lemma Forall_filter_keep {A} (P : A -> Prop) (g : A -> bool) l :
  Forall P l -> Forall P (filter g l).
Proof.
  rewrite !Forall_forall. intros H a [Ha _]%filter_In. now apply H.
Qed.

Lemma fold_obj_set_keys p (ks : list id) : forall (o : obj closure) k,
  In k (obj_keys (fold_left (fun pend idx =>
          obj_set idx {| c_idx := idx; c_payload := p |} pend) ks o)) ->
  In k (obj_keys o) \/ In k ks.
Proof.
  induction ks as [|i ks IH]; intros o k H; cbn in *; [now left|].
  apply IH in H as [H|H]; [|now right; right].
  rewrite obj_keys_set in H.
  destruct (existsb (Nat.eqb i) (obj_keys o)); [now left|].
  apply in_app_or in H as [H|[H|[]]]; [now left | right; now left].
Qed.

Lemma issued_opened p d : issued d -> issued (opened p d).
Proof.
  intros (Hc & Hp & Ht). split; [exact Hc|]. split; [|exact Ht].
  apply Forall_forall. intros k Hk. cbn in Hk.
  apply fold_obj_set_keys in Hk as [[]|Hk].
  rewrite Forall_forall in Hc. now apply Hc.
Qed.

Lemma issued_dispatch p d : issued d -> issued (snd (dispatch p d)).
Proof.
  intros H. unfold dispatch. destruct (truthy (_isDispatching d)); [exact H|].
  exact (issued_opened p d H).
Qed.

Lemma issued_drain d : issued d -> issued (_drain d).
Proof.
  intros H. unfold _drain. destruct (_queued d) as [|[p q] rest]; [exact H|].
  pose proof (issued_dispatch p (set_queued d rest) H) as H'.
  now destruct (dispatch p (set_queued d rest)).
Qed.

Lemma issued_using_done h o d : issued d -> issued (using_done h o d).
Proof.
  intros (Hc & Hp & Ht).
  unfold using_done, _batchPromise_disposer, _stopDispatching.
  set (d1 := set_isDispatching _ _).
  assert (H1 : issued d1).
  { split; [exact Hc|]. split; [exact Hp|]. cbn.
    intros inv i f p [Hin|[E|[]]]%in_app_or; [eauto | discriminate]. }
  destruct (issued_drain d1 H1) as (Hc' & Hp' & Ht').
  split; [exact Hc'|]. split; [exact Hp'|].
  unfold settle. cbn.
  intros inv i f p [Hin|(q & E & _)%in_map_iff]%in_app_or; [eauto | discriminate].
Qed.

Lemma issued_postDispatch idx d : issued d -> issued (_postDispatch idx d).
Proof.
  intros (Hc & Hp & Ht). split; [exact Hc|]. split; [|exact Ht]. cbn.
  rewrite obj_keys_delete. now apply Forall_filter_keep.
Qed.

Lemma issued_frame d d' :
  _lastID d' = _lastID d -> _callbacks d' = _callbacks d ->
  _pending d' = _pending d -> trace d' = trace d ->
  issued d -> issued d'.
Proof. intros E1 E2 E3 E4. unfold issued. now rewrite E1, E2, E3, E4. Qed.

Lemma issued_each h idxs d : issued d -> issued (_dispatchBatch_each h idxs d).
Proof.
  revert d. induction idxs as [|idx rest IH]; intros d H; cbn.
  - now apply issued_using_done.
  - assert (Hpost : issued (_postDispatch idx
             (set_openPromises (set_dispatchingId d (Some idx))
                (_openPromises d ++ [idx])))).
    { apply issued_postDispatch. revert H. now apply issued_frame. }
    destruct (obj_get idx (_pending d)) as [c|] eqn:Hc; [|now apply IH].
    unfold call_closure; cbn.
    destruct (obj_get (c_idx c) (_callbacks d)) as [f|]; [|now apply IH].
    destruct H as (Hcb & Hp & Ht). split; [exact Hcb|]. split; [exact Hp|]. cbn.
    intros inv i g p [Hin|[[= _ <- _ _]|[]]]%in_app_or; [eauto|].
    rewrite Forall_forall in Hp. apply Hp.
    apply obj_get_keys. congruence.
Qed.

Lemma issued_job_settled h idx rest o d :
  issued d -> issued (job_settled h idx rest o d).
Proof.
  intros H. unfold job_settled.
  destruct o; [apply issued_each | apply issued_using_done];
    now apply issued_postDispatch.
Qed.

Lemma waitFor_pending ids d : _pending (snd (waitFor ids d)) = _pending d.
Proof.
  unfold waitFor, promiseMethod, waitFor_method.
  destruct (truthy (_isDispatching d)); cbn; [|reflexivity].
  destruct (waitFor_forEach d ids []) as [pending|m]; [|reflexivity].
  now destruct (obj_keys pending).
Qed.

Lemma issued_step c d : issued d -> issued (step c d).
Proof.
  intros H. destruct c as [cb|i|p|ids|h|inv o]; cbn.
  - destruct H as (Hc & Hp & Ht). split; [|split]; cbn.
    + rewrite obj_keys_set.
      destruct (existsb (Nat.eqb (_lastID d)) (obj_keys (_callbacks d))).
      * eapply Forall_lt_mono; [|exact Hc]. lia.
      * apply Forall_app. split; [eapply Forall_lt_mono; [|exact Hc]; lia|].
        repeat constructor. lia.
    + eapply Forall_lt_mono; [|exact Hp]. lia.
    + intros inv i f p Hin. specialize (Ht inv i f p Hin). lia.
  - destruct H as (Hc & Hp & Ht). split; [|split; assumption]. cbn.
    rewrite obj_keys_delete. now apply Forall_filter_keep.
  - now apply issued_dispatch.
  - destruct (waitFor_registry ids d) as [E1 E2].
    destruct H as (Hc & Hp & Ht). unfold issued.
    rewrite E1, E2, waitFor_pending. split; [exact Hc|]. split; [exact Hp|].
    intros inv i f p Hin%waitFor_invoke. eauto.
  - destruct (find_created h d); [now apply issued_each | exact H].
  - destruct (find (awaits inv) (batches d)) as [[h [idxs|inv' idx rest]]|];
      try exact H.
    apply issued_job_settled. destruct H as (Hc & Hp & Ht).
    split; [exact Hc|]. split; [exact Hp|]. cbn.
    intros inv0 i f p [Hin|[E|[]]]%in_app_or; [eauto | discriminate].
Qed.

Lemma issued_reachable cs : issued (run cs new_Dispatcher).
Proof.
  assert (H : forall d, issued d -> issued (run cs d)).
  { induction cs as [|c cs IH]; intros d Hd; cbn; [exact Hd|].
    apply IH, issued_step, Hd. }
  apply H. split; [constructor|]. split; [constructor|]. intros ? ? ? ? [].
Qed.

Lemma below_not_in (n : nat) (l : list nat) :
  Forall (fun k => k < n) l -> ~ In n l.
Proof.
  intros H Hin. rewrite Forall_forall in H. specialize (H n Hin). lia.
Qed.

(** X1.  In every state the dispatcher can reach, [register(callback)]
    returns an identifier that was never issued before (it is neither
    registered nor pending, and no callback was ever invoked under it);
    the new registration comes last in the iteration order, the others
    keep their callbacks, the next [register] returns the next
    identifier, and different identifiers print as different tokens. *)
Theorem register_issues_fresh_id cs cb :
  let d := run cs new_Dispatcher in
  let i := fst (register cb d) in
  let d' := snd (register cb d) in
  ~ registered i d /\
  obj_get i (_pending d) = None /\
  (forall inv f p, ~ In (Invoke inv i f p) (trace d)) /\
  obj_keys (_callbacks d') = obj_keys (_callbacks d) ++ [i] /\
  obj_get i (_callbacks d') = Some cb /\
  (forall k, k <> i -> obj_get k (_callbacks d') = obj_get k (_callbacks d)) /\
  (forall cb', fst (register cb' d') = S i) /\
  (forall j, id_string j = id_string i -> j = i).
Proof.
  intros d i d'. subst i d'. cbn [fst snd register].
  destruct (issued_reachable cs) as (Hc & Hp & Ht). fold d in Hc, Hp, Ht.
  pose proof (below_not_in _ _ Hc) as Hnc.
  pose proof (below_not_in _ _ Hp) as Hnp.
  split; [|split; [|split; [|split; [|split; [|split; [|split]]]]]].
  - unfold registered. now rewrite obj_get_keys.
  - now apply obj_get_None_keys.
  - intros inv f p Hin. specialize (Ht _ _ _ _ Hin). lia.
  - cbn. rewrite obj_keys_set.
    destruct (existsb (Nat.eqb (_lastID d)) (obj_keys (_callbacks d))) eqn:E;
      [|reflexivity].
    apply existsb_eqb_In in E. contradiction.
  - cbn. apply obj_get_set_same.
  - intros k Hk. cbn. apply obj_get_set_other. congruence.
  - intros cb'. cbn. lia.
  - intros j. apply id_string_inj.
Qed.

Lemma obj_delete_set_fresh {V} (o : obj V) k v :
  ~ In k (obj_keys o) -> obj_delete k (obj_set k v o) = o.
Proof.
  unfold obj_delete, obj_keys.
  induction o as [|[k' v'] o IH]; cbn; intros H.
  - now rewrite Nat.eqb_refl.
  - destruct (Nat.eqb_spec k k') as [E|Hne].
    + exfalso. apply H. left. now symmetry.
    + cbn. destruct (Nat.eqb_spec k k') as [E|_]; [contradiction|]. cbn.
      f_equal. apply IH. intros Hin. apply H. now right.
Qed.

(** X2.  In every state the dispatcher can reach, [unregister] of the
    identifier that [register] has just returned gives back the
    registrations there were before, in the same order; the identifier
    stays used up: the next [register] returns another one. *)
Theorem register_unregister_round_trip cs cb :
  let d := run cs new_Dispatcher in
  let i := fst (register cb d) in
  let d' := unregister i (snd (register cb d)) in
  _callbacks d' = _callbacks d /\
  (forall cb', fst (register cb' d') <> i) /\
  _pending d' = _pending d /\
  _openPromises d' = _openPromises d /\
  _queued d' = _queued d /\
  _isDispatching d' = _isDispatching d /\
  batches d' = batches d /\
  trace d' = trace d.
Proof.
  intros d i d'. subst i d'.
  destruct (issued_reachable cs) as (Hc & _ & _). fold d in Hc.
  split; [|split; [|now repeat split]].
  - cbn. apply obj_delete_set_fresh. now apply below_not_in.
  - intros cb'. cbn. lia.
Qed.

(** X3.  A callback registered while a broadcast is open is not part of
    it: as long as no other broadcast starts (nothing is queued and
    [dispatch] is not called) no call sequence invokes it. *)
Theorem registered_later_not_invoked cs0 cb cs :
  let d := run cs0 new_Dispatcher in
  _queued d = [] ->
  Forall no_dispatch cs ->
  forall inv f p,
    ~ In (Invoke inv (fst (register cb d)) f p)
         (trace (run cs (snd (register cb d)))).
Proof.
  intros d Hq Hcs inv f p Hin.
  destruct (issued_reachable cs0) as (_ & Hp & Ht). fold d in Hp, Ht.
  apply (consumed_run (_lastID d) cs (snd (register cb d))) in Hin.
  - cbn in Hin. specialize (Ht _ _ _ _ Hin). lia.
  - exact Hcs.
  - split; [|exact Hq]. cbn. apply obj_get_None_keys. now apply below_not_in.
Qed.

Lemma registered_later_not_invoked_witness :
  _queued busy = [] /\
  (forall inv f p,
      ~ In (Invoke inv (fst (register 102 busy)) f p)
           (trace (run [WaitFor [2]; RunBatch 1; Settle 1 Resolved;
                        Settle 0 Resolved]
                     (snd (register 102 busy))))).
Proof.
  split; [reflexivity|].
  apply (registered_later_not_invoked
           [Register 100; Register 101; Dispatch 1; RunBatch 0] 102
           [WaitFor [2]; RunBatch 1; Settle 1 Resolved; Settle 0 Resolved]).
  - reflexivity.
  - repeat constructor.
Defined.

(** ** waitFor, the other outcomes *)

(** X4.  [waitFor(ids)] called while the dispatching flag is not set
    (undefined or false) rejects with the not-dispatching error whatever
    [ids] holds; it makes no batch and leaves registrations, pending
    map, open set, queue and flag as they were. *)
Theorem waitFor_outside_dispatch d ids :
  wf d ->
  truthy (_isDispatching d) = false ->
  let r := waitFor ids d in
  fst r = promises d /\
  trace (snd r) =
    trace d ++ [Settled (promises d) (Rejected not_dispatching_error)] /\
  batches (snd r) = batches d /\
  _pending (snd r) = _pending d /\
  _openPromises (snd r) = _openPromises d /\
  _queued (snd r) = _queued d /\
  _isDispatching (snd r) = _isDispatching d /\
  _callbacks (snd r) = _callbacks d.
Proof.
  intros [Hwf _] Hflag r. subst r.
  rewrite (waitFor_throw ids d not_dispatching_error).
  - cbn [fst snd]. rewrite settle_fresh by exact Hwf. now repeat split.
  - unfold waitFor_method. now rewrite Hflag.
Qed.

Lemma waitFor_outside_dispatch_witness :
  let d := run one_waitFor new_Dispatcher in
  let r := waitFor [2; 7] d in
  truthy (_isDispatching d) = false /\
  trace (snd r) =
    trace d ++ [Settled (promises d) (Rejected not_dispatching_error)].
Proof.
  split; [reflexivity|].
  apply (waitFor_outside_dispatch (run one_waitFor new_Dispatcher) [2; 7]).
  - apply wf_reachable.
  - reflexivity.
Defined.

Lemma waitFor_forEach_none d ids acc :
  Forall (fun j => registered j d /\ ~ open j d /\
                   obj_get j (_pending d) = None) ids ->
  waitFor_forEach d ids acc = Ok acc.
Proof.
  induction 1 as [|j ids (Hr & Ho & Hp) _ IH]; cbn; [reflexivity|].
  unfold registered in Hr. destruct (obj_get j (_callbacks d)); [|congruence].
  destruct (existsb (Nat.eqb j) (_openPromises d)) eqn:E.
  - apply existsb_eqb_In in E. contradiction.
  - now rewrite Hp.
Qed.

(** X5.  [waitFor(ids)] called while the flag is set with identifiers
    that are registered, not in the open set and without pending entry
    (they have run already; also when [ids] is empty) resolves at once:
    no batch is made, nothing is invoked and the bookkeeping is left as
    it was. *)
Theorem waitFor_nothing_pending d ids :
  wf d ->
  truthy (_isDispatching d) = true ->
  Forall (fun j => registered j d /\ ~ open j d /\
                   obj_get j (_pending d) = None) ids ->
  let r := waitFor ids d in
  fst r = promises d /\
  trace (snd r) = trace d ++ [Settled (promises d) Resolved] /\
  batches (snd r) = batches d /\
  _pending (snd r) = _pending d /\
  _openPromises (snd r) = _openPromises d /\
  _queued (snd r) = _queued d /\
  _isDispatching (snd r) = _isDispatching d.
Proof.
  intros [Hwf _] Hflag Hids r. subst r.
  assert (E : waitFor ids d =
              (promises d, settle (promises d) Resolved (snd (new_promise d)))).
  { unfold waitFor, promiseMethod, waitFor_method.
    rewrite Hflag, waitFor_forEach_none by exact Hids. reflexivity. }
  rewrite E. cbn [fst snd]. rewrite settle_fresh by exact Hwf.
  now repeat split.
Qed.

Lemma waitFor_nothing_pending_witness :
  let r := waitFor [1; 1] second_running in
  truthy (_isDispatching second_running) = true /\
  trace (snd r) =
    trace second_running ++ [Settled (promises second_running) Resolved] /\
  batches (snd r) = batches second_running.
Proof.
  split; [reflexivity|].
  assert (H : registered 1 second_running /\ ~ open 1 second_running /\
              obj_get 1 (_pending second_running) = None).
  { split; [discriminate|]. split; [|reflexivity].
    intros [E|[]]. discriminate. }
  destruct (waitFor_nothing_pending second_running [1; 1]) as (_ & Ht & Hb & _).
  - apply wf_reachable.
  - reflexivity.
  - repeat constructor; apply H.
  - split; [exact Ht | exact Hb].
Defined.

Lemma uniq_In seen l k : In k (uniq seen l) <-> In k l /\ ~ In k seen.
Proof.
  revert seen. induction l as [|j l IH]; intros seen; cbn; [tauto|].
  destruct (existsb (Nat.eqb j) seen) eqn:E.
  - apply existsb_eqb_In in E. rewrite IH. split.
    + intros [H1 H2]. auto.
    + intros [[->|H1] H2]; [contradiction | auto].
  - assert (Hj : ~ In j seen).
    { intros H. apply existsb_eqb_In in H. congruence. }
    cbn. rewrite IH, in_app_iff. cbn. split.
    + intros [->|[H1 H2]]; [auto | tauto].
    + intros [[->|H1] H2]; [now left|].
      destruct (Nat.eq_dec j k) as [->|Hne]; [now left | right; tauto].
Qed.

Lemma uniq_NoDup seen l : NoDup (uniq seen l).
Proof.
  revert seen. induction l as [|j l IH]; intros seen; cbn; [constructor|].
  destruct (existsb (Nat.eqb j) seen); [apply IH|].
  constructor; [|apply IH].
  rewrite uniq_In, in_app_iff. cbn. tauto.
Qed.

Lemma waitFor_forEach_keys d ids : forall acc,
  Forall (fun j => registered j d /\ ~ open j d) ids ->
  exists pending,
    waitFor_forEach d ids acc = Ok pending /\
    obj_keys pending =
      obj_keys acc ++ uniq (obj_keys acc) (filter (has_pending d) ids).
Proof.
  induction ids as [|j ids IH]; intros acc Hids; cbn.
  - exists acc. now rewrite app_nil_r.
  - inversion Hids as [|? ? [Hr Ho] Hids']; subst.
    unfold registered in Hr.
    destruct (obj_get j (_callbacks d)) as [f|]; [|congruence].
    destruct (existsb (Nat.eqb j) (_openPromises d)) eqn:E.
    { apply existsb_eqb_In in E. contradiction. }
    unfold has_pending at 1.
    destruct (obj_get j (_pending d)) as [c|]; [|now apply IH].
    destruct (IH (obj_set j c acc) Hids') as (pending & E1 & E2).
    exists pending. split; [exact E1|]. rewrite E2, obj_keys_set. cbn.
    destruct (existsb (Nat.eqb j) (obj_keys acc)); [reflexivity|].
    now rewrite <- app_assoc.
Qed.

(** X6.  [waitFor(ids)] called while the flag is set, with identifiers
    that are all registered and outside the open set and of which one at
    least still has a pending entry, makes one batch and returns its
    promise, unsettled: the batch lists the requested identifiers that
    still have a pending entry, each once, in the order in which [ids]
    names them first.  Nothing is invoked by the call itself and the
    pending map and the open set are not touched. *)
Theorem waitFor_makes_batch d ids :
  wf d ->
  truthy (_isDispatching d) = true ->
  Forall (fun j => registered j d /\ ~ open j d) ids ->
  Exists (fun j => has_pending d j = true) ids ->
  let r := waitFor ids d in
  let idxs := uniq [] (filter (has_pending d) ids) in
  fst r = promises d /\
  batches (snd r) =
    batches d ++ [{| b_promise := promises d; b_state := Created idxs |}] /\
  NoDup idxs /\
  (forall k, In k idxs <-> In k ids /\ has_pending d k = true) /\
  trace (snd r) = trace d /\
  _pending (snd r) = _pending d /\
  _openPromises (snd r) = _openPromises d.
Proof.
  intros _ Hflag Hids Hex r idxs. subst r idxs.
  destruct (waitFor_forEach_keys d ids [] Hids) as (pending & E1 & E2).
  change (obj_keys (@nil (nat * closure))) with (@nil nat) in E2. cbn in E2.
  assert (Hne : uniq [] (filter (has_pending d) ids) <> []).
  { apply Exists_exists in Hex as (j & Hj & Hp).
    assert (Hin : In j (uniq [] (filter (has_pending d) ids))).
    { apply uniq_In. split; [|tauto]. now apply filter_In. }
    intros E. now rewrite E in Hin. }
  assert (E : waitFor ids d = _dispatchBatch pending d).
  { unfold waitFor, promiseMethod, waitFor_method.
    rewrite Hflag, E1. cbn [negb]. cbv iota.
    destruct (obj_keys pending) eqn:Ek; [|reflexivity].
    symmetry in E2. contradiction. }
  rewrite E. unfold _dispatchBatch, _batchPromise. cbn. rewrite E2.
  split; [reflexivity|]. split; [reflexivity|]. split; [apply uniq_NoDup|].
  split; [|now repeat split].
  intros k. rewrite uniq_In, filter_In. cbn. tauto.
Qed.

Lemma waitFor_makes_batch_witness :
  let r := waitFor [2; 2] busy in
  truthy (_isDispatching busy) = true /\
  batches (snd r) =
    batches busy ++ [{| b_promise := promises busy; b_state := Created [2] |}] /\
  trace (snd r) = trace busy.
Proof.
  split; [reflexivity|].
  assert (H : registered 2 busy /\ ~ open 2 busy).
  { split; [discriminate|]. intros [E|[]]. discriminate. }
  destruct (waitFor_makes_batch busy [2; 2]) as (_ & Hb & _ & _ & Ht & _).
  - apply wf_reachable.
  - reflexivity.
  - repeat constructor; apply H.
  - left. reflexivity.
  - split; [exact Hb | exact Ht].
Defined.

(** ** dispatch, the queue and the drain *)

Lemma obj_set_fresh {V} (o : obj V) k v :
  ~ In k (obj_keys o) -> obj_set k v o = o ++ [(k, v)].
Proof.
  unfold obj_keys. induction o as [|[k' v'] o IH]; cbn; intros H; [reflexivity|].
  destruct (Nat.eqb_spec k k') as [E|_].
  - exfalso. apply H. left. now symmetry.
  - f_equal. apply IH. intros Hin. apply H. now right.
Qed.

Lemma fold_snapshot p (ks : list id) : forall (o : obj closure),
  NoDup ks ->
  (forall k, In k ks -> ~ In k (obj_keys o)) ->
  fold_left (fun pend idx =>
               obj_set idx {| c_idx := idx; c_payload := p |} pend) ks o =
  o ++ snapshot p ks.
Proof.
  induction ks as [|i ks IH]; intros o Hnd Hfresh; cbn.
  - now rewrite app_nil_r.
  - inversion Hnd as [|? ? Hi Hnd']; subst.
    rewrite obj_set_fresh by (apply Hfresh; now left).
    rewrite IH; [now rewrite <- app_assoc | exact Hnd' |].
    intros k Hk. unfold obj_keys. rewrite map_app, in_app_iff. cbn.
    intros [Hin|[<-|[]]]; [|contradiction].
    apply (Hfresh k); [now right | exact Hin].
Qed.

Lemma dispatch_opens d p :
  wf_core d ->
  truthy (_isDispatching d) = false ->
  dispatch p d =
  (promises d,
   set_batches
     (set_promises
        (set_pending (set_openPromises (set_isDispatching d (Some true)) [])
           (snapshot p (obj_keys (_callbacks d))))
        (S (promises d)))
     (batches d ++ [{| b_promise := promises d;
                       b_state := Created (obj_keys (_callbacks d)) |}])).
Proof.
  intros Hwf Hflag. rewrite dispatch_start by exact Hflag.
  unfold opened, _dispatchBatch, _batchPromise. cbn.
  rewrite fold_snapshot; [reflexivity | exact (wf_callbacks d Hwf) |].
  intros k _ [].
Qed.

(** X7.  [dispatch(payload)] called while the flag is not set opens a
    broadcast at once: the flag is set, the open set is emptied, the
    pending map is replaced by one entry per callback registered at that
    moment, in registration order and all with [payload], and one batch
    over these identifiers is made, whose promise is returned unsettled.
    Nothing is queued and nothing is invoked by the call itself. *)
Theorem dispatch_opens_broadcast d p :
  wf d ->
  truthy (_isDispatching d) = false ->
  let r := dispatch p d in
  fst r = promises d /\
  _isDispatching (snd r) = Some true /\
  _openPromises (snd r) = [] /\
  _pending (snd r) = snapshot p (obj_keys (_callbacks d)) /\
  batches (snd r) =
    batches d ++ [{| b_promise := promises d;
                     b_state := Created (obj_keys (_callbacks d)) |}] /\
  _queued (snd r) = _queued d /\
  _callbacks (snd r) = _callbacks d /\
  trace (snd r) = trace d.
Proof.
  intros [Hwf _] Hflag r. subst r.
  rewrite dispatch_opens by assumption. now repeat split.
Qed.

Lemma dispatch_opens_broadcast_witness :
  let d := run boom_first new_Dispatcher in
  let r := dispatch 9 d in
  truthy (_isDispatching d) = false /\
  _pending d = [(2, {| c_idx := 2; c_payload := 1 |})] /\
  _pending (snd r) = snapshot 9 [1; 2] /\
  _openPromises (snd r) = [].
Proof.
  split; [reflexivity|]. split; [reflexivity|].
  destruct (dispatch_opens_broadcast (run boom_first new_Dispatcher) 9)
    as (_ & _ & Ho & Hp & _).
  - apply wf_reachable.
  - reflexivity.
  - split; [exact Hp | exact Ho].
Defined.

(** X8.  Calls of [dispatch] made while the flag is set are queued in
    the order of the calls, behind what is queued already, each with a
    promise of its own; they start no batch, invoke nothing and leave
    the open broadcast's pending map and open set alone. *)
Theorem dispatches_queue_in_order ps : forall d,
  truthy (_isDispatching d) = true ->
  let d' := run (map Dispatch ps) d in
  _queued d' =
    _queued d ++ combine ps (seq (promises d) (List.length ps)) /\
  promises d' = promises d + List.length ps /\
  batches d' = batches d /\
  _pending d' = _pending d /\
  _openPromises d' = _openPromises d /\
  _isDispatching d' = _isDispatching d /\
  trace d' = trace d.
Proof.
  induction ps as [|p ps IH]; intros d Hflag; cbn zeta.
  - cbn. rewrite app_nil_r, Nat.add_0_r. now repeat split.
  - change (run (map Dispatch (p :: ps)) d)
      with (run (map Dispatch ps) (step (Dispatch p) d)).
    assert (E : step (Dispatch p) d =
                set_queued (set_promises d (S (promises d)))
                  (_queued d ++ [(p, promises d)])).
    { cbn. unfold dispatch. now rewrite Hflag. }
    rewrite E. clear E.
    set (d1 := set_queued _ _).
    destruct (IH d1 Hflag) as (H1 & H2 & H3 & H4 & H5 & H6 & H7).
    rewrite H1, H2, H3, H4, H5, H6, H7. cbn.
    rewrite <- app_assoc. cbn. repeat split. lia.
Qed.

Lemma dispatches_queue_in_order_witness :
  truthy (_isDispatching busy) = true /\
  _queued (run (map Dispatch [7; 8; 9]) busy) = [(7, 1); (8, 2); (9, 3)].
Proof.
  split; [reflexivity|].
  apply (dispatches_queue_in_order [7; 8; 9] busy). reflexivity.
Defined.

(** X9.  When [_stopDispatching()] runs with calls in the queue, the
    oldest one is taken out and its broadcast is opened in the same
    step: the flag is set again, the open set is emptied, the pending
    map is rebuilt from the registrations with the queued payload, one
    batch over them is made, and its promise is chained to the promise
    the queued caller holds.  The calls behind it stay queued in order. *)
Theorem stopDispatching_starts_oldest d p q rest :
  wf d ->
  _queued d = (p, q) :: rest ->
  let d' := _stopDispatching d in
  _queued d' = rest /\
  _isDispatching d' = Some true /\
  _openPromises d' = [] /\
  _pending d' = snapshot p (obj_keys (_callbacks d)) /\
  batches d' =
    batches d ++ [{| b_promise := promises d;
                     b_state := Created (obj_keys (_callbacks d)) |}] /\
  thens d' = (promises d, q) :: thens d /\
  trace d' = trace d ++ [Stop].
Proof.
  intros [Hwf _] Hq d'. subst d'.
  unfold _stopDispatching, _drain. cbn [_queued set_isDispatching emit set_trace].
  rewrite Hq.
  rewrite dispatch_opens.
  - now repeat split.
  - destruct Hwf. now constructor.
  - reflexivity.
Qed.

Lemma stopDispatching_starts_oldest_witness :
  let d' := _stopDispatching two_queued in
  _queued two_queued = [(2, 1); (3, 2)] /\
  _queued d' = [(3, 2)] /\
  _pending d' = snapshot 2 [1] /\
  thens d' = [(3, 1)].
Proof.
  split; [reflexivity|].
  destruct (stopDispatching_starts_oldest two_queued 2 1 [(3, 2)])
    as (Hq & _ & _ & Hp & _ & Ht & _).
  - apply wf_reachable.
  - reflexivity.
  - split; [exact Hq|]. split; [exact Hp | exact Ht].
Defined.

Lemma followers_link ls : forall hs a b,
  In (a, b) ls -> In a hs -> In b (followers ls hs).
Proof.
  induction ls as [|[a' b'] ls IH]; intros hs a b Hin Ha; [contradiction|].
  cbn. destruct Hin as [[= -> ->]|Hin].
  - assert (E : existsb (Nat.eqb a) hs = true) by now apply existsb_eqb_In.
    rewrite E. apply followers_head, in_or_app. right. now left.
  - destruct (existsb (Nat.eqb a') hs); eapply IH; eauto.
    apply in_or_app. now left.
Qed.

Lemma dispatch_thens p d : thens (snd (dispatch p d)) = thens d.
Proof. unfold dispatch. now destruct (truthy (_isDispatching d)). Qed.

Lemma drain_thens d l : In l (thens d) -> In l (thens (_drain d)).
Proof.
  unfold _drain. destruct (_queued d) as [|[p q] rest]; [auto|].
  pose proof (dispatch_thens p (set_queued d rest)) as E.
  destruct (dispatch p (set_queued d rest)) as [h d2]. cbn in *.
  rewrite E. now right.
Qed.

Lemma using_done_thens h o d l :
  In l (thens d) -> In l (thens (using_done h o d)).
Proof.
  intros H. unfold using_done, _batchPromise_disposer, _stopDispatching, settle.
  cbn. now apply drain_thens.
Qed.

Lemma each_thens h idxs d l :
  In l (thens d) -> In l (thens (_dispatchBatch_each h idxs d)).
Proof.
  revert d. induction idxs as [|idx rest IH]; intros d H.
  - now apply (using_done_thens h Resolved).
  - cbn. destruct (obj_get idx (_pending d)) as [c|]; [|now apply IH].
    unfold call_closure; cbn.
    destruct (obj_get (c_idx c) (_callbacks d)); [exact H | now apply IH].
Qed.

Lemma waitFor_thens ids d : thens (snd (waitFor ids d)) = thens d.
Proof.
  unfold waitFor, promiseMethod, waitFor_method.
  destruct (truthy (_isDispatching d)); cbn; [|reflexivity].
  destruct (waitFor_forEach d ids []) as [pending|m]; [|reflexivity].
  now destruct (obj_keys pending).
Qed.

Lemma step_thens c d l : In l (thens d) -> In l (thens (step c d)).
Proof.
  intros H. destruct c as [cb|i|p|ids|h|inv o]; cbn.
  - exact H.
  - exact H.
  - now rewrite dispatch_thens.
  - now rewrite waitFor_thens.
  - destruct (find_created h d); [now apply each_thens | exact H].
  - destruct (find (awaits inv) (batches d)) as [[h [idxs|inv' idx rest]]|];
      try exact H.
    unfold job_settled.
    destruct o; [apply each_thens | apply using_done_thens]; exact H.
Qed.

Lemma run_thens cs : forall d l, In l (thens d) -> In l (thens (run cs d)).
Proof.
  induction cs as [|c cs IH]; intros d l H; cbn; [exact H|].
  apply IH, step_thens, H.
Qed.

(** X11.  In every state the dispatcher can reach, the queue is empty
    whenever the dispatching flag is not set: a queued call of
    [dispatch] is never left waiting while no broadcast is open, since
    the step that clears the flag starts the oldest queued call. *)
Theorem no_call_left_queued cs :
  truthy (_isDispatching (run cs new_Dispatcher)) = false ->
  _queued (run cs new_Dispatcher) = [].
Proof. exact (proj2 (wf_reachable cs)). Qed.

Lemma no_call_left_queued_witness :
  truthy (_isDispatching
            (run (nested_then_queued ++ [Settle 2 Resolved; Settle 0 Resolved;
                                         Settle 3 Resolved])
               new_Dispatcher)) = false /\
  _queued (run (nested_then_queued ++ [Settle 2 Resolved; Settle 0 Resolved;
                                       Settle 3 Resolved])
             new_Dispatcher) = [].
Proof.
  split; [vm_compute; reflexivity|].
  apply (no_call_left_queued
           (nested_then_queued ++ [Settle 2 Resolved; Settle 0 Resolved;
                                   Settle 3 Resolved])).
  vm_compute. reflexivity.
Defined.

(** ** A broadcast that succeeds *)


Lemma snapshot_keys p ks : obj_keys (snapshot p ks) = ks.
Proof.
  unfold obj_keys, snapshot. rewrite map_map. cbn. apply map_id.
Qed.







(** ** Identifiers that a batch passes over *)

Lemma skipped_postDispatch k j d : skipped d j -> skipped (_postDispatch k d) j.
Proof.
  unfold skipped. cbn.
  destruct (obj_get j (obj_delete k (_pending d))) as [c|] eqn:E; [|auto].
  apply obj_get_delete_Some in E. now rewrite E.
Qed.

Lemma each_skipped h (idxs : list nat) : forall d,
  Forall (skipped d) idxs ->
  _dispatchBatch_each h idxs d =
  using_done h Resolved
    (fold_left (fun d k => _postDispatch k
                  (set_openPromises (set_dispatchingId d (Some k))
                     (_openPromises d ++ [k]))) idxs d).
Proof.
  induction idxs as [|k idxs IH]; intros d Hs; [reflexivity|].
  inversion Hs as [|? ? Hk Hs']; subst.
  assert (Hs1 : Forall (skipped (_postDispatch k
             (set_openPromises (set_dispatchingId d (Some k))
                (_openPromises d ++ [k])))) idxs).
  { eapply Forall_impl; [|exact Hs']. intros j Hj.
    now apply skipped_postDispatch. }
  cbn [_dispatchBatch_each fold_left]. unfold skipped in Hk. cbn.
  destruct (obj_get k (_pending d)) as [c|]; [|now apply IH].
  unfold call_closure. cbn. rewrite Hk. now apply IH.
Qed.

Lemma fold_postDispatch_trace (idxs : list nat) : forall d,
  trace (fold_left (fun d k => _postDispatch k
                      (set_openPromises (set_dispatchingId d (Some k))
                         (_openPromises d ++ [k]))) idxs d) = trace d.
Proof.
  induction idxs as [|k idxs IH]; intros d; cbn [fold_left]; [reflexivity|].
  now rewrite IH.
Qed.

(** X13.  When a batch runs whose identifiers all have no pending entry
    any more, or a pending entry whose callback has been unregistered in
    the meantime, no callback is invoked: the batch is over in that
    step, the stop-dispatching step runs once and the promise of the
    batch resolves. *)
Theorem batch_without_callbacks_resolves d h idxs :
  find_created h d = Some idxs ->
  Forall (skipped d) idxs ->
  let d' := step (RunBatch h) d in
  invoked (trace d') = invoked (trace d) /\
  In (Settled h Resolved) (trace d') /\
  count_stops (trace d') = S (count_stops (trace d)).
Proof.
  intros Hf Hs d'. subst d'. cbn [step]. rewrite Hf, each_skipped by exact Hs.
  set (d1 := fold_left _ idxs d).
  assert (Ht : trace d1 = trace d) by apply fold_postDispatch_trace.
  clearbody d1.
  unfold using_done, _batchPromise_disposer, _stopDispatching, settle.
  cbn. rewrite drain_trace. cbn. rewrite Ht.
  assert (E : forall l, invoked (map (fun q => Settled q Resolved) l) = []).
  { induction l; cbn; auto. }
  assert (E' : forall l, count_stops (map (fun q => Settled q Resolved) l) = 0).
  { induction l; cbn; auto. }
  split; [|split].
  - rewrite !invoked_app, E. cbn. now rewrite !app_nil_r.
  - apply in_or_app. right. apply in_map_iff. exists h.
    split; [reflexivity | apply followers_head; now left].
  - unfold count_stops in *. rewrite !filter_app, !length_app, E'. cbn. lia.
Qed.

Lemma batch_without_callbacks_resolves_witness :
  let d' := step (RunBatch 0) all_unregistered in
  obj_keys (_pending all_unregistered) = [1; 2] /\
  invoked (trace d') = [] /\
  In (Settled 0 Resolved) (trace d') /\
  count_stops (trace d') = 1.
Proof.
  split; [reflexivity|].
  apply (batch_without_callbacks_resolves all_unregistered 0 [1; 2]).
  - reflexivity.
  - repeat constructor.
Defined.

(** ** The cleanup of one job *)

Lemma filter_comm {A} (f g : A -> bool) l :
  filter f (filter g l) = filter g (filter f l).
Proof.
  induction l as [|a l IH]; cbn; [reflexivity|].
  destruct (f a) eqn:Ef, (g a) eqn:Eg; cbn; rewrite ?Ef, ?Eg, IH; reflexivity.
Qed.

(** X14.  [_postDispatch(idx)] removes [idx] from the pending map and
    every occurrence of it from the open set, and leaves the other
    identifiers where they are; running it a second time changes
    nothing, and the cleanups of two identifiers give the same state in
    either order. *)
Theorem postDispatch_cleans idx d :
  let d' := _postDispatch idx d in
  obj_get idx (_pending d') = None /\
  ~ open idx d' /\
  (forall k, k <> idx ->
             obj_get k (_pending d') = obj_get k (_pending d) /\
             (open k d' <-> open k d)) /\
  _postDispatch idx d' = d' /\
  (forall j, _postDispatch j d' = _postDispatch idx (_postDispatch j d)).
Proof.
  cbn zeta. split; [|split; [|split; [|split]]].
  - cbn. apply obj_get_delete.
  - unfold open. cbn. rewrite filter_In, Nat.eqb_refl. cbn. intros [_ [=]].
  - intros k Hk. split.
    + cbn. apply obj_get_delete_other. congruence.
    + unfold open. cbn. rewrite filter_In.
      destruct (Nat.eqb_spec idx k) as [E|_]; [congruence|]. cbn. tauto.
  - unfold _postDispatch, obj_delete. cbn. now rewrite !filter_idem.
  - intros j. unfold _postDispatch, obj_delete. cbn.
    now rewrite (filter_comm _ _ (_pending d)),
                (filter_comm _ _ (_openPromises d)).
Qed.

(** ** The pending map belongs to one dispatch *)

Lemma one_payload_sub d d' :
  (forall kc, In kc (_pending d') -> In kc (_pending d)) ->
  one_payload d -> one_payload d'.
Proof. intros Hsub H k c k' c' H1 H2. apply (H k c k' c'); now apply Hsub. Qed.

Lemma fold_obj_set_payload p (ks : list id) : forall (o : obj closure),
  (forall k c, In (k, c) o -> c_payload c = p) ->
  forall k c,
    In (k, c) (fold_left (fun pend idx =>
                 obj_set idx {| c_idx := idx; c_payload := p |} pend) ks o) ->
    c_payload c = p.
Proof.
  induction ks as [|i ks IH]; cbn; intros o Ho k c; [apply Ho|].
  apply IH. intros k' c' [E|Hin]%obj_set_In; [now inversion E | eauto].
Qed.

Lemma one_payload_dispatch p d : one_payload d -> one_payload (snd (dispatch p d)).
Proof.
  intros H. unfold dispatch. destruct (truthy (_isDispatching d)); [exact H|].
  intros k c k' c' H1 H2. cbn in H1, H2.
  apply fold_obj_set_payload in H1; [|intros ? ? []].
  apply fold_obj_set_payload in H2; [|intros ? ? []]. congruence.
Qed.

Lemma one_payload_drain d : one_payload d -> one_payload (_drain d).
Proof.
  intros H. unfold _drain. destruct (_queued d) as [|[p q] rest]; [exact H|].
  pose proof (one_payload_dispatch p (set_queued d rest) H) as H'.
  now destruct (dispatch p (set_queued d rest)).
Qed.

Lemma one_payload_using_done h o d : one_payload d -> one_payload (using_done h o d).
Proof.
  intros H. unfold using_done, _batchPromise_disposer, _stopDispatching, settle.
  set (d1 := set_isDispatching _ _).
  assert (H1 : one_payload d1) by exact H.
  exact (one_payload_drain d1 H1).
Qed.

Lemma one_payload_postDispatch idx d : one_payload d -> one_payload (_postDispatch idx d).
Proof.
  apply one_payload_sub. intros [k c]. cbn. apply obj_delete_In.
Qed.

Lemma one_payload_each h idxs : forall d,
  one_payload d -> one_payload (_dispatchBatch_each h idxs d).
Proof.
  induction idxs as [|idx rest IH]; intros d H.
  - now apply (one_payload_using_done h Resolved).
  - cbn.
    assert (Hpost : one_payload (_postDispatch idx
              (set_openPromises (set_dispatchingId d (Some idx))
                 (_openPromises d ++ [idx]))))
      by now apply one_payload_postDispatch.
    destruct (obj_get idx (_pending d)) as [c|]; [|now apply IH].
    unfold call_closure; cbn.
    destruct (obj_get (c_idx c) (_callbacks d)); [exact H | now apply IH].
Qed.

Lemma one_payload_step c d : one_payload d -> one_payload (step c d).
Proof.
  intros H. destruct c as [cb|i|p|ids|h|inv o]; cbn.
  - exact H.
  - exact H.
  - now apply one_payload_dispatch.
  - unfold one_payload. now rewrite waitFor_pending.
  - destruct (find_created h d); [now apply one_payload_each | exact H].
  - destruct (find (awaits inv) (batches d)) as [[h [idxs|inv' idx rest]]|];
      try exact H.
    unfold job_settled.
    destruct o; [apply one_payload_each | apply one_payload_using_done];
      now apply one_payload_postDispatch.
Qed.

(** X15.  In every state the dispatcher can reach, the entries of the
    pending map were all made by one call of [dispatch]: they carry one
    and the same payload, and each is filed under the identifier whose
    callback it calls, an identifier that [register] has issued. *)
Theorem pending_map_of_one_dispatch cs :
  let d := run cs new_Dispatcher in
  one_payload d /\
  (forall k c, In (k, c) (_pending d) -> c_idx c = k /\ k < _lastID d).
Proof.
  intros d. subst d. split.
  - assert (H : forall d, one_payload d -> one_payload (run cs d)).
    { induction cs as [|c cs IH]; intros d Hd; cbn; [exact Hd|].
      apply IH, one_payload_step, Hd. }
    apply H. intros ? ? ? ? [].
  - intros k c Hin. split.
    + exact (wf_pending _ (proj1 (wf_reachable cs)) k c Hin).
    + destruct (issued_reachable cs) as (_ & Hp & _).
      rewrite Forall_forall in Hp. apply Hp.
      unfold obj_keys. apply in_map_iff. now exists (k, c).
Qed.

(** ** waitFor brings a dependency forward *)

Lemma set_state_fresh h s bs :
  (forall b0, In b0 bs -> b_promise b0 <> h) ->
  map (fun b => if Nat.eqb h (b_promise b)
                then {| b_promise := h; b_state := s |} else b) bs = bs.
Proof.
  intros H. rewrite <- (map_id bs) at 2. apply map_ext_in. intros b0 Hb.
  destruct (Nat.eqb_spec h (b_promise b0)) as [E|_]; [|reflexivity].
  exfalso. apply (H b0 Hb). now symmetry.
Qed.

Lemma remove_fresh h bs :
  (forall b0, In b0 bs -> b_promise b0 <> h) ->
  filter (fun b => negb (Nat.eqb h (b_promise b))) bs = bs.
Proof.
  intros H. apply filter_all. intros b0 Hb.
  destruct (Nat.eqb_spec h (b_promise b0)) as [E|_]; [|reflexivity].
  exfalso. apply (H b0 Hb). now symmetry.
Qed.

Lemma find_promise_fresh h bs l :
  (forall b0, In b0 bs -> b_promise b0 <> h) ->
  find (fun b => Nat.eqb h (b_promise b)) (bs ++ l) =
  find (fun b => Nat.eqb h (b_promise b)) l.
Proof.
  intros H. apply find_app_skip. intros b0 Hb. apply Nat.eqb_neq.
  intros E. apply (H b0 Hb). now symmetry.
Qed.

Lemma find_awaits_fresh inv bs l :
  (forall b0 inv' idx rest,
      In b0 bs -> b_state b0 = Awaiting inv' idx rest -> inv' <> inv) ->
  find (awaits inv) (bs ++ l) = find (awaits inv) l.
Proof.
  intros H. apply find_app_skip. intros b0 Hb. unfold awaits.
  destruct (b_state b0) as [|inv' idx rest] eqn:E; [reflexivity|].
  apply Nat.eqb_neq. intros ->. now apply (H b0 inv' idx rest Hb E).
Qed.

Section Ordering.

Variables (lastID : nat) (opn : list id) (pend : obj closure)
  (flag : option bool) (did : option id) (proms invs : nat)
  (bs : list batch) (th : list (promise * promise)) (tr : list event)
  (p : payload) (b a : nat) (fb fa : callback).
Hypothesis Hflag : truthy flag = false.
Hypothesis Hab : Nat.eqb a b = false.
Hypothesis Hbat : forall b0, In b0 bs -> b_promise b0 < proms.
Hypothesis Hinv : forall b0 inv idx rest,
  In b0 bs -> b_state b0 = Awaiting inv idx rest -> inv < invs.
Hypothesis Hth : forall x y, In (x, y) th -> x < proms.

Lemma ord_fresh1 : forall b0, In b0 bs -> b_promise b0 <> proms.
Proof. intros b0 Hb. specialize (Hbat b0 Hb). lia. Qed.

Lemma ord_fresh2 : forall b0, In b0 bs -> b_promise b0 <> S proms.
Proof. intros b0 Hb. specialize (Hbat b0 Hb). lia. Qed.

Lemma ord_inv1 : forall b0 inv' idx rest,
  In b0 bs -> b_state b0 = Awaiting inv' idx rest -> inv' <> S invs.
Proof. intros b0 inv' idx rest Hb E. specialize (Hinv _ _ _ _ Hb E). lia. Qed.

Lemma ord_inv0 : forall b0 inv' idx rest,
  In b0 bs -> b_state b0 = Awaiting inv' idx rest -> inv' <> invs.
Proof. intros b0 inv' idx rest Hb E. specialize (Hinv _ _ _ _ Hb E). lia. Qed.

Lemma ord_followers h : proms <= h -> followers th [h] = [h].
Proof.
  intros Hh. apply followers_fresh. intros x y Hxy. specialize (Hth x y Hxy). lia.
Qed.

Lemma ord_get_b (o : obj closure) v : obj_get b ((b, v) :: o) = Some v.
Proof. cbn. now rewrite Nat.eqb_refl. Qed.

Lemma ord_get_a {V} (o : obj V) v w : obj_get a ((b, v) :: (a, w) :: o) = Some w.
Proof. cbn. now rewrite Hab, Nat.eqb_refl. Qed.

Lemma ord1 :
  step (Dispatch p)
    (Build_Dispatcher lastID [(b, fb); (a, fa)] [] opn
     pend
     flag did proms invs
     bs
     th
     tr) =
  (Build_Dispatcher lastID [(b, fb); (a, fa)] [] []
     [(b, {| c_idx := b; c_payload := p |}); (a, {| c_idx := a; c_payload := p |})]
     (Some true) did (S proms) invs
     (bs ++ [{| b_promise := proms; b_state := Created [b; a] |}])
     th
     tr).
Proof.
  cbn. unfold dispatch. cbn. rewrite Hflag.
  unfold _dispatchBatch, _batchPromise, obj_keys. cbn. rewrite Hab.
  reflexivity.
Qed.

Lemma ord2 :
  step (RunBatch proms)
    (Build_Dispatcher lastID [(b, fb); (a, fa)] [] []
     [(b, {| c_idx := b; c_payload := p |}); (a, {| c_idx := a; c_payload := p |})]
     (Some true) did (S proms) invs
     (bs ++ [{| b_promise := proms; b_state := Created [b; a] |}])
     th
     tr) =
  (Build_Dispatcher lastID [(b, fb); (a, fa)] [] [b]
     [(b, {| c_idx := b; c_payload := p |}); (a, {| c_idx := a; c_payload := p |})]
     (Some true) (Some b) (S proms) (S invs)
     (bs ++ [{| b_promise := proms; b_state := Awaiting invs b [a] |}])
     th
     (tr ++ [Invoke invs b fb p])).
Proof.
  cbn [step]. unfold find_created. cbn [batches].
  rewrite find_promise_fresh by exact ord_fresh1.
  cbn [find b_promise b_state]. rewrite Nat.eqb_refl.
  erewrite (each_invokes proms b [a] _ {| c_idx := b; c_payload := p |} fb).
  - unfold invoke_state, set_batch_state. cbn.
    rewrite map_app, set_state_fresh by exact ord_fresh1.
    cbn. rewrite Nat.eqb_refl. reflexivity.
  - apply ord_get_b.
  - cbn. now rewrite Nat.eqb_refl.
Qed.

Lemma ord3 :
  step (WaitFor [a])
    (Build_Dispatcher lastID [(b, fb); (a, fa)] [] [b]
     [(b, {| c_idx := b; c_payload := p |}); (a, {| c_idx := a; c_payload := p |})]
     (Some true) (Some b) (S proms) (S invs)
     (bs ++ [{| b_promise := proms; b_state := Awaiting invs b [a] |}])
     th
     (tr ++ [Invoke invs b fb p])) =
  (Build_Dispatcher lastID [(b, fb); (a, fa)] [] [b]
     [(b, {| c_idx := b; c_payload := p |}); (a, {| c_idx := a; c_payload := p |})]
     (Some true) (Some b) (S (S proms)) (S invs)
     (bs ++ [{| b_promise := proms; b_state := Awaiting invs b [a] |};
             {| b_promise := S proms; b_state := Created [a] |}])
     th
     (tr ++ [Invoke invs b fb p])).
Proof.
  cbn [step]. unfold waitFor, promiseMethod, waitFor_method.
  cbn [_isDispatching truthy negb waitFor_forEach _pending _callbacks
       _openPromises].
  rewrite !ord_get_a. cbn [existsb]. rewrite Hab. cbn [orb obj_set].
  unfold _dispatchBatch, _batchPromise, obj_keys, new_promise. cbn.
  rewrite <- app_assoc. reflexivity.
Qed.

Lemma ord4 :
  step (RunBatch (S proms))
    (Build_Dispatcher lastID [(b, fb); (a, fa)] [] [b]
     [(b, {| c_idx := b; c_payload := p |}); (a, {| c_idx := a; c_payload := p |})]
     (Some true) (Some b) (S (S proms)) (S invs)
     (bs ++ [{| b_promise := proms; b_state := Awaiting invs b [a] |};
             {| b_promise := S proms; b_state := Created [a] |}])
     th
     (tr ++ [Invoke invs b fb p])) =
  (Build_Dispatcher lastID [(b, fb); (a, fa)] [] [b; a]
     [(b, {| c_idx := b; c_payload := p |}); (a, {| c_idx := a; c_payload := p |})]
     (Some true) (Some a) (S (S proms)) (S (S invs))
     (bs ++ [{| b_promise := proms; b_state := Awaiting invs b [a] |};
             {| b_promise := S proms; b_state := Awaiting (S invs) a [] |}])
     th
     ((tr ++ [Invoke invs b fb p]) ++ [Invoke (S invs) a fa p])).
Proof.
  cbn [step]. unfold find_created. cbn [batches].
  rewrite find_promise_fresh by exact ord_fresh2.
  cbn [find b_promise b_state].
  assert (E : Nat.eqb (S proms) proms = false) by (apply Nat.eqb_neq; lia).
  rewrite E, Nat.eqb_refl.
  erewrite (each_invokes (S proms) a [] _ {| c_idx := a; c_payload := p |} fa).
  - unfold invoke_state, set_batch_state. cbn -[Nat.eqb].
    rewrite map_app, set_state_fresh by exact ord_fresh2.
    cbn -[Nat.eqb]. rewrite E, Nat.eqb_refl. reflexivity.
  - apply ord_get_a.
  - apply ord_get_a.
Qed.

Lemma ord5 :
  step (Settle (S invs) Resolved)
    (Build_Dispatcher lastID [(b, fb); (a, fa)] [] [b; a]
     [(b, {| c_idx := b; c_payload := p |}); (a, {| c_idx := a; c_payload := p |})]
     (Some true) (Some a) (S (S proms)) (S (S invs))
     (bs ++ [{| b_promise := proms; b_state := Awaiting invs b [a] |};
             {| b_promise := S proms; b_state := Awaiting (S invs) a [] |}])
     th
     ((tr ++ [Invoke invs b fb p]) ++ [Invoke (S invs) a fa p])) =
  (Build_Dispatcher lastID [(b, fb); (a, fa)] [] [b]
     [(b, {| c_idx := b; c_payload := p |})]
     (Some false) None (S (S proms)) (S (S invs))
     (bs ++ [{| b_promise := proms; b_state := Awaiting invs b [a] |}])
     th
     (((((tr ++ [Invoke invs b fb p]) ++ [Invoke (S invs) a fa p]) ++ [Return (S invs) Resolved]) ++ [Stop]) ++
      [Settled (S proms) Resolved])).
Proof.
  cbn [step]. cbn [batches].
  rewrite find_awaits_fresh by exact ord_inv1.
  cbn [find]. unfold awaits at 1. cbn [b_state].
  assert (E : Nat.eqb (S invs) invs = false) by (apply Nat.eqb_neq; lia).
  rewrite E. unfold awaits at 1. cbn [b_state]. rewrite Nat.eqb_refl.
  unfold job_settled. cbn [_dispatchBatch_each].
  unfold using_done, _batchPromise_disposer, _stopDispatching.
  rewrite drain_empty by reflexivity.
  unfold settle. cbn -[Nat.eqb remove_batch _postDispatch].
  rewrite ord_followers by lia.
  unfold remove_batch, _postDispatch, obj_delete. cbn -[Nat.eqb].
  rewrite (filter_app _ bs), (remove_fresh (S proms) bs ord_fresh2).
  cbn -[Nat.eqb].
  assert (E' : Nat.eqb (S proms) proms = false) by (apply Nat.eqb_neq; lia).
  rewrite Hab, E', !Nat.eqb_refl. cbn. rewrite ?app_nil_r. reflexivity.
Qed.

Lemma ord6 :
  step (Settle invs Resolved)
    (Build_Dispatcher lastID [(b, fb); (a, fa)] [] [b]
     [(b, {| c_idx := b; c_payload := p |})]
     (Some false) None (S (S proms)) (S (S invs))
     (bs ++ [{| b_promise := proms; b_state := Awaiting invs b [a] |}])
     th
     (((((tr ++ [Invoke invs b fb p]) ++ [Invoke (S invs) a fa p]) ++ [Return (S invs) Resolved]) ++ [Stop]) ++
      [Settled (S proms) Resolved])) =
  (Build_Dispatcher lastID [(b, fb); (a, fa)] [] []
     []
     (Some false) None (S (S proms)) (S (S invs))
     bs
     th
     ((((((((tr ++ [Invoke invs b fb p]) ++ [Invoke (S invs) a fa p]) ++ [Return (S invs) Resolved]) ++ [Stop]) ++
      [Settled (S proms) Resolved]) ++ [Return invs Resolved]) ++ [Stop]) ++
      [Settled proms Resolved])).
Proof.
  cbn [step]. cbn [batches].
  rewrite find_awaits_fresh by exact ord_inv0.
  cbn [find]. unfold awaits at 1. cbn [b_state]. rewrite Nat.eqb_refl.
  unfold job_settled.
  rewrite each_skipped.
  - unfold using_done, _batchPromise_disposer, _stopDispatching.
    rewrite drain_empty by reflexivity.
    unfold settle. cbn -[Nat.eqb remove_batch _postDispatch].
    rewrite ord_followers by lia.
    unfold remove_batch, _postDispatch, obj_delete. cbn -[Nat.eqb].
    rewrite (filter_app _ bs), (remove_fresh proms bs ord_fresh1).
    cbn -[Nat.eqb].
    repeat (progress (rewrite ?Hab, ?Nat.eqb_refl; cbn -[Nat.eqb])).
    rewrite ?app_nil_r. reflexivity.
  - constructor; [|constructor]. unfold skipped, _postDispatch, obj_delete.
    cbn. now rewrite Nat.eqb_refl.
Qed.

End Ordering.

(** X16.  Two callbacks, [b] registered before [a], and a broadcast
    started while the flag is not set.  The callback of [b], invoked
    first, calls [waitFor([a])]: the callback of [a] is invoked and
    settles while [b] is still running, then the promise of [waitFor]
    resolves; when [b] has settled the loop of [dispatch] reaches [a],
    passes over it (its pending entry is gone) and the promise of
    [dispatch] resolves.  Each callback has been invoked exactly once,
    with the payload, and the bookkeeping is empty again. *)
Theorem waitFor_runs_dependency_first d p b a fb fa :
  wf d ->
  truthy (_isDispatching d) = false ->
  _callbacks d = [(b, fb); (a, fa)] ->
  let h := promises d in
  let h' := S (promises d) in
  let ib := invocations d in
  let ia := S (invocations d) in
  let d' := run [Dispatch p; RunBatch h; WaitFor [a]; RunBatch h';
                 Settle ia Resolved; Settle ib Resolved] d in
  trace d' =
    trace d ++ [Invoke ib b fb p; Invoke ia a fa p; Return ia Resolved; Stop;
                Settled h' Resolved; Return ib Resolved; Stop;
                Settled h Resolved] /\
  _pending d' = [] /\
  _openPromises d' = [] /\
  _isDispatching d' = Some false /\
  batches d' = batches d.
Proof.
  intros [Hwf Hidle] Hflag Hcb h h' ib ia d'. subst h h' ib ia d'.
  pose proof (Hidle Hflag) as Hq.
  assert (Hab : Nat.eqb a b = false).
  { pose proof (wf_callbacks d Hwf) as Hnd. rewrite Hcb in Hnd.
    apply Nat.eqb_neq. intros ->.
    inversion Hnd as [|? ? Hin _]. apply Hin. now left. }
  pose proof (wf_batches d Hwf) as Hbat.
  pose proof (wf_awaiting d Hwf) as Hinv.
  pose proof (wf_thens d Hwf) as Hth.
  clear Hwf Hidle.
  destruct d as [lastID cbs q opn pend flag did proms invs bs th tr].
  cbn in Hflag, Hcb, Hq, Hbat, Hinv, Hth. subst cbs q.
  unfold run. cbn [fold_left promises invocations].
  rewrite ord1 by assumption.
  rewrite ord2 by assumption.
  rewrite ord3 by assumption.
  rewrite ord4 by assumption.
  rewrite ord5 by assumption.
  rewrite ord6 by assumption.
  cbn. rewrite <- !app_assoc. now repeat split.
Qed.

Lemma waitFor_runs_dependency_first_witness :
  let d' := run [Dispatch 7; RunBatch 0; WaitFor [2]; RunBatch 1;
                 Settle 1 Resolved; Settle 0 Resolved] two_registered in
  trace d' =
    [Invoke 0 1 100 7; Invoke 1 2 101 7; Return 1 Resolved; Stop;
     Settled 1 Resolved; Return 0 Resolved; Stop; Settled 0 Resolved] /\
  _pending d' = [] /\
  _openPromises d' = [] /\
  _isDispatching d' = Some false /\
  batches d' = [].
Proof.
  exact (waitFor_runs_dependency_first two_registered 7 1 2 100 101
           (wf_reachable _) eq_refl eq_refl).
Defined.

(** ** One job settles *)

Lemma drain_open d k : open k (_drain d) -> open k d.
Proof.
  unfold _drain, open. destruct (_queued d) as [|[p q] rest]; [auto|].
  unfold dispatch. cbn. destruct (truthy (_isDispatching d)); cbn; [auto|].
  intros [].
Qed.

Lemma using_done_open h o d k : open k (using_done h o d) -> open k d.
Proof.
  unfold using_done, _batchPromise_disposer, _stopDispatching, settle.
  intros H. now apply drain_open in H.
Qed.

Lemma invoked_settled o l : invoked (map (fun q => Settled q o) l) = [].
Proof. induction l; cbn; auto. Qed.

Lemma count_stops_settled o l : count_stops (map (fun q => Settled q o) l) = 0.
Proof. induction l; cbn; auto. Qed.

(** X17.  When the promise of an invoked callback rejects with message
    [m], the batch that invoked it ends in that step, whatever is left
    of its list: the cleanup of the job takes the identifier out of the
    open set, the stop-dispatching step runs once, the promise of the
    batch rejects with the same message [m], and no further callback is
    invoked by that step. *)
Theorem rejection_ends_batch d inv h idx rest m :
  find (awaits inv) (batches d) =
    Some {| b_promise := h; b_state := Awaiting inv idx rest |} ->
  let d' := step (Settle inv (Rejected m)) d in
  In (Return inv (Rejected m)) (trace d') /\
  In (Settled h (Rejected m)) (trace d') /\
  invoked (trace d') = invoked (trace d) /\
  count_stops (trace d') = S (count_stops (trace d)) /\
  ~ open idx d'.
Proof.
  intros Hf d'. subst d'. cbn [step]. rewrite Hf. unfold job_settled.
  split; [|split; [|split; [|split]]].
  - unfold using_done, _batchPromise_disposer, _stopDispatching, settle. cbn.
    rewrite drain_trace. cbn.
    apply in_or_app. left. apply in_or_app. left. apply in_or_app. right.
    now left.
  - unfold using_done, _batchPromise_disposer, _stopDispatching, settle. cbn.
    apply in_or_app. right. apply in_map_iff. exists h.
    split; [reflexivity | apply followers_head; now left].
  - unfold using_done, _batchPromise_disposer, _stopDispatching, settle. cbn.
    rewrite drain_trace. cbn.
    rewrite !invoked_app, invoked_settled. cbn. now rewrite !app_nil_r.
  - unfold using_done, _batchPromise_disposer, _stopDispatching, settle. cbn.
    rewrite drain_trace. cbn.
    unfold count_stops. rewrite !filter_app, !length_app.
    fold (count_stops (map (fun q => Settled q (Rejected m))
            (followers (thens (_drain (set_isDispatching (emit Stop
               (set_dispatchingId (remove_batch h (_postDispatch idx
                  (emit (Return inv (Rejected m)) d))) None)) (Some false))))
               [h]))).
    rewrite count_stops_settled. cbn. lia.
  - intros H%using_done_open. unfold open in H. cbn in H.
    apply filter_In in H as [_ H]. now rewrite Nat.eqb_refl in H.
Qed.

Lemma rejection_ends_batch_witness :
  let d := run wait_chain new_Dispatcher in
  let d' := step (Settle 1 (Rejected "boom")) d in
  find (awaits 1) (batches d) =
    Some {| b_promise := 1; b_state := Awaiting 1 2 [] |} /\
  In (Settled 1 (Rejected "boom")) (trace d') /\
  invoked (trace d') = invoked (trace d) /\
  ~ open 2 d'.
Proof.
  split; [reflexivity|].
  destruct (rejection_ends_batch (run wait_chain new_Dispatcher) 1 1 2 []
              "boom") as (_ & H1 & H2 & _ & H3).
  - reflexivity.
  - split; [exact H1|]. split; [exact H2 | exact H3].
Defined.

(** X18.  When the promise of an invoked callback resolves and the next
    identifier of the batch has a pending entry whose callback is still
    registered, the cleanup of the settled job runs and that next
    callback is invoked in the same step, with the payload of its
    pending entry: one callback of a batch is invoked only when the one
    before it has settled. *)
Theorem resolution_invokes_next d inv h idx k rest c f :
  find (awaits inv) (batches d) =
    Some {| b_promise := h; b_state := Awaiting inv idx (k :: rest) |} ->
  k <> idx ->
  obj_get k (_pending d) = Some c ->
  obj_get (c_idx c) (_callbacks d) = Some f ->
  let d' := step (Settle inv Resolved) d in
  trace d' =
    trace d ++ [Return inv Resolved; Invoke (invocations d) k f (c_payload c)] /\
  obj_get idx (_pending d') = None /\
  _openPromises d' =
    filter (fun i => negb (Nat.eqb idx i)) (_openPromises d) ++ [k] /\
  _dispatchingId d' = Some k.
Proof.
  intros Hf Hk Hc Hcb d'. subst d'. cbn [step]. rewrite Hf. unfold job_settled.
  rewrite (each_invokes h k rest _ c f).
  - unfold invoke_state, set_batch_state. cbn. rewrite <- app_assoc. cbn.
    repeat split. apply obj_get_delete.
  - cbn. rewrite obj_get_delete_other by congruence. exact Hc.
  - exact Hcb.
Qed.

Lemma resolution_invokes_next_witness :
  let d' := step (Settle 0 Resolved) busy in
  trace d' = trace busy ++ [Return 0 Resolved; Invoke 1 2 101 1] /\
  obj_get 1 (_pending d') = None /\
  _openPromises d' = [2] /\
  _dispatchingId d' = Some 2.
Proof.
  exact (resolution_invokes_next busy 0 0 1 2 []
           {| c_idx := 2; c_payload := 1 |} 101
           eq_refl (fun E => Nat.neq_succ_diag_l 1 E) eq_refl eq_refl).
Defined.

(** X19.  In every state the dispatcher can reach in which
    [isDispatching()] returns false, a call of [dispatch] is not queued:
    it opens its broadcast at once, with a batch over the callbacks
    registered at that moment, and [isDispatching()] returns true
    afterwards. *)
Theorem dispatch_starts_when_not_dispatching cs p :
  let d := run cs new_Dispatcher in
  let r := dispatch p d in
  isDispatching d = false ->
  _queued (snd r) = [] /\
  isDispatching (snd r) = true /\
  find_created (fst r) (snd r) = Some (obj_keys (_callbacks d)) /\
  _pending (snd r) = snapshot p (obj_keys (_callbacks d)).
Proof.
  intros d r Hd. subst r.
  destruct (wf_reachable cs) as [Hwf Hidle]. fold d in Hwf, Hidle.
  assert (Hflag : truthy (_isDispatching d) = false).
  { unfold isDispatching in Hd. destruct (_isDispatching d) as [[|]|];
      (discriminate || reflexivity). }
  split; [|split; [|split]].
  - rewrite dispatch_opens by assumption. cbn. exact (Hidle Hflag).
  - rewrite dispatch_opens by assumption. reflexivity.
  - rewrite dispatch_start by exact Hflag.
    change (fst (_dispatchBatch (_callbacks d) (opened p d)))
      with (promises (opened p d)).
    apply find_created_dispatchBatch. now apply wf_opened.
  - rewrite dispatch_opens by assumption. reflexivity.
Qed.

Lemma dispatch_starts_when_not_dispatching_witness :
  let d := run boom_first new_Dispatcher in
  let r := dispatch 9 d in
  isDispatching d = false /\
  _queued (snd r) = [] /\
  isDispatching (snd r) = true /\
  find_created (fst r) (snd r) = Some [1; 2].
Proof.
  split; [reflexivity|].
  destruct (dispatch_starts_when_not_dispatching boom_first 9)
    as (H1 & H2 & H3 & _).
  - reflexivity.
  - split; [exact H1|]. split; [exact H2 | exact H3].
Defined.

(** * Whole broadcasts *)

(** ** A running callback is in the open set *)



(** The state that the loop of a batch goes on from. *)
Ltac each_state k :=
  match goal with
  | |- context [_dispatchBatch_each _ _ ?s] => k s
  end.






Lemma NoDup_snoc {A} (l : list A) a : NoDup l -> ~ In a l -> NoDup (l ++ [a]).
Proof.
  induction l as [|b l IH]; cbn; intros H Ha.
  - constructor; [intros [] | constructor].
  - inversion H as [|? ? Hb Hl]; subst. constructor.
    + intros [Hin|[->|[]]]%in_app_or; [contradiction|]. apply Ha. now left.
    + apply IH; [exact Hl|]. intros Hin. apply Ha. now right.
Qed.




Lemma waitFor_idle ids d :
  _queued (snd (waitFor ids d)) = _queued d /\
  _isDispatching (snd (waitFor ids d)) = _isDispatching d /\
  _openPromises (snd (waitFor ids d)) = _openPromises d /\
  (batches (snd (waitFor ids d)) = batches d \/
   exists ks, batches (snd (waitFor ids d)) =
              batches d ++ [{| b_promise := promises d; b_state := Created ks |}]).
Proof.
  unfold waitFor, promiseMethod, waitFor_method.
  destruct (truthy (_isDispatching d)); cbn; [|now auto].
  destruct (waitFor_forEach d ids []) as [pending|m]; cbn; [|now auto].
  destruct (obj_keys pending) eqn:E; cbn; [now auto|].
  repeat split. right. unfold _batchPromise. rewrite E. eauto.
Qed.








Lemma run_snoc cs c d : run (cs ++ [c]) d = step c (run cs d).
Proof. unfold run. now rewrite fold_left_app. Qed.






(** The hypotheses of C5 as amended cannot be dropped.  In
    [second_invocation] the callback of ID_3 has been invoked twice; its
    first invocation is still running, the flag is set, and
    [waitFor([ID_3])] resolves.  In [dispatch_inside] a second broadcast
    has begun while the callback of ID_1 is running, and
    [waitFor([ID_1])] makes a batch over ID_1. *)
Example waitFor_self_not_circular :
  (let d := run second_invocation new_Dispatcher in
   invoked_since 0 d = [1; 3; 3; 2] /\
   running 3 d /\ registered 3 d /\ ~ open 3 d /\
   _isDispatching d = Some true /\
   trace (snd (waitFor [3] d)) = trace d ++ [Settled 3 Resolved]) /\
  (let d := run dispatch_inside new_Dispatcher in
   running 1 d /\ registered 1 d /\ ~ open 1 d /\
   _isDispatching d = Some true /\
   batches (snd (waitFor [1] d)) =
     batches d ++ [{| b_promise := 3; b_state := Created [1] |}]).
Proof.
  split; cbv zeta.
  - split; [vm_compute; reflexivity|]. split.
    { exists {| b_promise := 1; b_state := Awaiting 1 3 [] |}, 1, [].
      split; [vm_compute; auto | reflexivity]. }
    split; [vm_compute; discriminate|]. split.
    { vm_compute. intros [E|[E|[]]]; discriminate. }
    split; vm_compute; reflexivity.
  - split.
    { exists {| b_promise := 0; b_state := Awaiting 0 1 [2] |}, 0, [2].
      split; [vm_compute; auto | reflexivity]. }
    split; [vm_compute; discriminate|]. split.
    { vm_compute. intros []. }
    split; vm_compute; reflexivity.
Qed.


(** ** A broadcast without callbacks *)

Lemma count_stops_app tr tr' :
  count_stops (tr ++ tr') = count_stops tr + count_stops tr'.
Proof. unfold count_stops. now rewrite filter_app, length_app. Qed.

Lemma waitFor_forEach_empty d : _pending d = [] -> forall ids,
  waitFor_forEach d ids [] = Ok [] \/
  exists m, waitFor_forEach d ids [] = Throw m.
Proof.
  intros Hp. induction ids as [|i ids IH]; cbn; [now left|].
  destruct (obj_get i (_callbacks d)); [|eauto].
  destruct (existsb (Nat.eqb i) (_openPromises d)); [eauto|].
  rewrite Hp. exact IH.
Qed.

(** While the batch of a broadcast without pending entries has not run,
    calls of the public methods queue the payloads given to [dispatch]
    and do nothing else to the broadcast. *)
Lemma method_calls_wait bs th cs : forall s,
  Forall method_call cs ->
  wf_core s ->
  _isDispatching s = Some true -> _pending s = [] ->
  batches s = bs -> thens s = th ->
  let s' := run cs s in
  wf_core s' /\
  _isDispatching s' = Some true /\ _pending s' = [] /\
  batches s' = bs /\ thens s' = th /\
  promises s <= promises s' /\
  invoked (trace s') = invoked (trace s) /\
  count_stops (trace s') = count_stops (trace s) /\
  map fst (_queued s') = map fst (_queued s) ++ dispatched cs.
Proof.
  induction cs as [|c cs IH]; intros s Hcs Hwf Hflag Hp Hb Hth; cbn zeta.
  - cbn. rewrite app_nil_r. split; [exact Hwf|]. repeat split; auto.
  - inversion Hcs as [|? ? Hc Hcs']; subst.
    change (run (c :: cs) s) with (run cs (step c s)).
    assert (Hstep :
      wf_core (step c s) /\
      _isDispatching (step c s) = Some true /\ _pending (step c s) = [] /\
      batches (step c s) = batches s /\ thens (step c s) = thens s /\
      promises s <= promises (step c s) /\
      invoked (trace (step c s)) = invoked (trace s) /\
      count_stops (trace (step c s)) = count_stops (trace s) /\
      map fst (_queued (step c s)) = map fst (_queued s) ++ dispatched [c]).
    { destruct c as [cb|i|p|ids|h|inv o]; cbn [step]; try contradiction.
      - split; [now apply wf_register|].
        cbn. rewrite app_nil_r. repeat split; auto.
      - split; [now apply wf_unregister|].
        cbn. rewrite app_nil_r. repeat split; auto.
      - pose proof (wf_dispatch p s Hwf) as Hwf'.
        split; [exact Hwf'|].
        unfold dispatch. rewrite Hflag. cbn.
        rewrite map_app. repeat split; auto.
      - assert (E : exists o, waitFor ids s =
                      (promises s, settle (promises s) o (snd (new_promise s)))).
        { unfold waitFor, promiseMethod, waitFor_method. rewrite Hflag. cbn.
          destruct (waitFor_forEach_empty s Hp ids) as [E|(m & E)]; rewrite E;
            unfold obj_keys; cbn; eauto. }
        destruct E as (o & E). rewrite E. cbn [snd].
        split; [apply wf_settle; now apply (wf_new_promise s)|].
        assert (Et : trace (settle (promises s) o (snd (new_promise s))) =
                     trace s ++ map (fun q => Settled q o)
                                  (followers (thens s) [promises s]))
          by reflexivity.
        rewrite Et, invoked_app, invoked_settled, count_stops_app,
          count_stops_settled, !app_nil_r, Nat.add_0_r.
        cbn. repeat split; auto. }
    destruct Hstep as (W1 & F1 & P1 & B1 & T1 & N1 & I1 & S1 & Q1).
    destruct (IH (step c s) Hcs' W1 F1 P1 B1 T1) as (W2 & F2 & P2 & B2 & T2 & N2 & I2 & S2 & Q2).
    split; [exact W2|]. repeat split; auto; try congruence; try lia.
    rewrite Q2, Q1, <- app_assoc. f_equal.
    unfold dispatched. cbn. now rewrite app_nil_r.
Qed.

(** The batch [h] over no identifier runs: it ends at once, the
    stop-dispatching step starts the oldest queued call if there is
    one, and the promise of the batch resolves. *)
Lemma empty_batch_runs s h bs :
  wf_core s ->
  batches s = bs ++ [{| b_promise := h; b_state := Created [] |}] ->
  (forall b, In b bs -> b_promise b <> h) ->
  h < promises s ->
  (forall a b, In (a, b) (thens s) -> a <> h) ->
  let s' := step (RunBatch h) s in
  trace s' = trace s ++ [Stop; Settled h Resolved] /\
  match _queued s with
  | [] =>
      _isDispatching s' = Some false /\ _queued s' = [] /\ batches s' = bs
  | (p, q) :: rest =>
      _isDispatching s' = Some true /\ _queued s' = rest /\
      batches s' = bs ++ [{| b_promise := promises s;
                            b_state := Created (obj_keys (_callbacks s)) |}] /\
      _pending s' = snapshot p (obj_keys (_callbacks s)) /\
      _openPromises s' = [] /\
      thens s' = (promises s, q) :: thens s
  end.
Proof.
  intros Hwf Hb Hbs Hh Hth s'. subst s'.
  assert (Hne : forall b, In b bs -> Nat.eqb h (b_promise b) = false).
  { intros b Hin. apply Nat.eqb_neq. intros E. now apply (Hbs b Hin). }
  cbn [step]. unfold find_created. rewrite Hb.
  rewrite find_app_skip by exact Hne.
  cbn [find b_promise]. rewrite Nat.eqb_refl. cbn [_dispatchBatch_each].
  unfold using_done, _batchPromise_disposer, _stopDispatching.
  set (s2 := set_isDispatching _ (Some false)).
  assert (Hb2 : batches s2 = bs).
  { subst s2. cbn. rewrite Hb, filter_app. cbn. rewrite Nat.eqb_refl. cbn.
    rewrite app_nil_r. apply filter_all. intros b Hin. now rewrite Hne. }
  assert (Hwf2 : wf_core s2).
  { subst s2. now apply wf_set_isDispatching, wf_emit, wf_set_dispatchingId,
      wf_remove_batch. }
  assert (Ht2 : trace s2 = trace s ++ [Stop]) by reflexivity.
  assert (Hq2 : _queued s2 = _queued s) by reflexivity.
  assert (Hth2 : thens s2 = thens s) by reflexivity.
  assert (Hp2 : promises s2 = promises s) by reflexivity.
  assert (Hc2 : _callbacks s2 = _callbacks s) by reflexivity.
  assert (Hf2 : _isDispatching s2 = Some false) by reflexivity.
  clearbody s2.
  destruct (_queued s) as [|[p q] rest] eqn:Eq.
  - rewrite drain_empty by exact Hq2. unfold settle. cbn.
    rewrite Hth2, followers_fresh by exact Hth.
    rewrite Ht2, <- app_assoc. now repeat split.
  - unfold _drain. rewrite Hq2.
    rewrite dispatch_opens;
      [|now apply wf_set_queued | cbn; now rewrite Hf2].
    unfold settle, then_. cbn. rewrite Hth2, Hp2, Hc2, Hb2, Ht2.
    destruct (Nat.eqb_spec (promises s) h) as [E|_]; [lia|]. cbn.
    rewrite followers_fresh by exact Hth.
    rewrite <- app_assoc. now repeat split.
Qed.

(** C10 (as stated, fails).  In [three_dispatches] the promise of
    [dispatch(1)] has resolved, and at that moment the flag is set, for
    the broadcast of [dispatch(2)], and [dispatch(3)] is still queued. *)
Lemma queued_call_starts_before_settlement :
  let d := run three_dispatches new_Dispatcher in
  _callbacks d = [] /\
  trace d = [Stop; Settled 0 Resolved] /\
  _isDispatching d = Some true /\
  _queued d = [(3, 2)].
Proof. vm_compute. repeat split; reflexivity. Qed.

(** C10 (as amended).  On a dispatcher that has no callback registered
    and whose dispatching flag is not set, [dispatch(payload)] is
    followed by any calls of the public methods and then by the run of
    its batch.  The calls of [dispatch] made in between are queued in
    order.  The batch invokes nothing; the stop-dispatching step runs
    once and the returned promise resolves.  If nothing was queued the
    flag is then [false], the queue is empty and no batch of the call
    is left; else the flag is set again: the oldest queued call has
    been taken from the queue and its broadcast opened, with its
    promise chained to the one the caller holds, and the calls behind
    it are still queued. *)
Theorem dispatch_without_callbacks d p cs :
  wf d ->
  _callbacks d = [] ->
  truthy (_isDispatching d) = false ->
  Forall method_call cs ->
  let h := fst (dispatch p d) in
  let d1 := run cs (snd (dispatch p d)) in
  let d' := step (RunBatch h) d1 in
  map fst (_queued d1) = dispatched cs /\
  trace d' = trace d1 ++ [Stop; Settled h Resolved] /\
  invoked (trace d') = invoked (trace d) /\
  count_stops (trace d') = S (count_stops (trace d)) /\
  match _queued d1 with
  | [] =>
      _isDispatching d' = Some false /\ _queued d' = [] /\
      batches d' = batches d
  | (p', q) :: rest =>
      _isDispatching d' = Some true /\ _queued d' = rest /\
      batches d' =
        batches d ++ [{| b_promise := promises d1;
                         b_state := Created (obj_keys (_callbacks d1)) |}] /\
      _pending d' = snapshot p' (obj_keys (_callbacks d1)) /\
      _openPromises d' = [] /\
      thens d' = (promises d1, q) :: thens d
  end.
Proof.
  intros [Hwf Hidle] Hcbs Hflag Hcs h d1 d'. subst h d1 d'.
  pose proof (wf_dispatch p d Hwf) as Hwf0.
  rewrite (dispatch_opens d p Hwf Hflag) in *. cbn [fst snd] in *.
  rewrite Hcbs in *.
  change (obj_keys (@nil (nat * callback))) with (@nil id) in *.
  change (snapshot p []) with (@nil (nat * closure)) in *.
  set (s0 := set_batches _ _) in *.
  destruct (method_calls_wait (batches s0) (thens s0) cs s0 Hcs Hwf0)
    as (W & F & P & B & T & N & I & St & Q); try reflexivity.
  set (s1 := run cs s0) in *.
  change (batches s0)
    with (batches d ++ [{| b_promise := promises d; b_state := Created [] |}])
    in B.
  change (thens s0) with (thens d) in T.
  change (promises s0) with (S (promises d)) in N.
  change (trace s0) with (trace d) in I, St.
  change (_queued s0) with (_queued d) in Q.
  rewrite (Hidle Hflag) in Q. cbn [map app] in Q.
  clearbody s1. clear s0 Hwf0.
  destruct (empty_batch_runs s1 (promises d) (batches d) W B) as (Ht & Hm).
  - intros b Hb. pose proof (wf_batches d Hwf b Hb). lia.
  - lia.
  - rewrite T. intros a b Hab. pose proof (wf_thens d Hwf a b Hab). lia.
  - split; [exact Q|]. split; [exact Ht|].
    rewrite Ht, invoked_app, count_stops_app, I, St. cbn.
    rewrite app_nil_r. split; [reflexivity|]. split; [lia|].
    destruct (_queued s1) as [|[p' q] rest]; [exact Hm|].
    now rewrite <- T.
Qed.

Lemma dispatch_without_callbacks_witness :
  let cs := [Dispatch 8; Register 5; WaitFor [2]; Dispatch 9] in
  let h := fst (dispatch 7 emptied) in
  let d1 := run cs (snd (dispatch 7 emptied)) in
  let d' := step (RunBatch h) d1 in
  trace emptied <> [] /\
  map fst (_queued d1) = [8; 9] /\
  trace d' = trace d1 ++ [Stop; Settled h Resolved] /\
  invoked (trace d') = invoked (trace emptied) /\
  _isDispatching d' = Some true /\
  map fst (_queued d') = [9] /\
  _pending d' = snapshot 8 [2].
Proof.
  cbv zeta. split; [discriminate|].
  destruct (dispatch_without_callbacks emptied 7
              [Dispatch 8; Register 5; WaitFor [2]; Dispatch 9])
    as (Hq & Ht & Hi & _ & Hm).
  - apply wf_reachable.
  - reflexivity.
  - reflexivity.
  - repeat constructor.
  - split; [exact Hq|]. split; [exact Ht|]. split; [exact Hi|].
    assert (E : _queued (run [Dispatch 8; Register 5; WaitFor [2]; Dispatch 9]
                           (snd (dispatch 7 emptied))) = [(8, 2); (9, 4)])
      by (vm_compute; reflexivity).
    rewrite E in Hm. destruct Hm as (Hf & Hr & _).
    split; [exact Hf|]. split; [now rewrite Hr|].
    vm_compute. reflexivity.
Defined.

(** ** The promise of a queued call *)

Lemma settled_app tr tr' : settled (tr ++ tr') = settled tr ++ settled tr'.
Proof. apply flat_map_app. Qed.

Lemma settled_In x tr : In x (settled tr) <-> exists o, In (Settled x o) tr.
Proof.
  unfold settled. rewrite in_flat_map. split.
  - intros (e & He & Hx). destruct e as [| |y o|]; try contradiction.
    destruct Hx as [->|[]]. eauto.
  - intros (o & Ho). exists (Settled x o). split; [exact Ho | now left].
Qed.

Lemma settled_settle o l : settled (map (fun q => Settled q o) l) = l.
Proof. induction l as [|a l IH]; cbn; [reflexivity | now f_equal]. Qed.

Lemma target_In (th : list (promise * promise)) a b :
  In (a, b) th -> In b (map snd th).
Proof. intros H. apply in_map_iff. now exists (a, b). Qed.

Lemma target_unique (th : list (promise * promise)) a a' b :
  NoDup (map snd th) -> In (a, b) th -> In (a', b) th -> a = a'.
Proof.
  induction th as [|[x y] th IH]; cbn; intros Hnd H H'; [contradiction|].
  inversion Hnd as [|? ? Hy Hnd']; subst.
  destruct H as [E|H], H' as [E'|H'].
  - congruence.
  - injection E as -> ->. exfalso. apply Hy. eapply target_In, H'.
  - injection E' as -> ->. exfalso. apply Hy. eapply target_In, H.
  - now apply IH.
Qed.

(** Without a promise that is both chained to and chained from, the
    promises that settle with [h] are [h] and those chained to it. *)
Lemma followers_direct ls : forall hs x,
  (forall a b, In (a, b) ls -> ~ In a (map snd ls)) ->
  In x (followers ls hs) -> In x hs \/ exists a, In a hs /\ In (a, x) ls.
Proof.
  induction ls as [|[a b] ls IH]; intros hs x Hst; cbn; [now left|].
  assert (Hst' : forall a' b', In (a', b') ls -> ~ In a' (map snd ls)).
  { intros a' b' Hin Ht. apply (Hst a' b'); [now right|]. now right. }
  destruct (existsb (Nat.eqb a) hs) eqn:E.
  - apply existsb_eqb_In in E.
    intros [Hx|(a' & Ha' & Hl)]%(IH _ _ Hst').
    + apply in_app_or in Hx as [Hx|[<-|[]]]; [now left|].
      right. exists a. split; [exact E | now left].
    + apply in_app_or in Ha' as [Ha'|[<-|[]]].
      * right. exists a'. split; [exact Ha' | now right].
      * exfalso. apply (Hst b x); [now right|]. now left.
  - intros [Hx|(a' & Ha' & Hl)]%(IH _ _ Hst'); [now left|].
    right. exists a'. split; [exact Ha' | now right].
Qed.

Section Roles.
Variables (qs bs : list promise) (th : list (promise * promise)).
Variables (n : nat) (st : list promise).
Hypothesis H : roles qs bs th n st.

Lemma roles_push : roles (qs ++ [n]) bs th (S n) st.
Proof.
  destruct H. constructor.
  - intros x [Hx|[<-|[]]]%in_app_or; [specialize (r_queue0 x Hx)|]; lia.
  - intros x Hx. specialize (r_batch0 x Hx). lia.
  - intros a b Hab. specialize (r_then0 a b Hab). lia.
  - intros x Hx. specialize (r_settled0 x Hx). lia.
  - apply NoDup_snoc; [exact r_queue_once0|].
    intros Hn. specialize (r_queue0 n Hn). lia.
  - exact r_target_once0.
  - intros x [Hx|[<-|[]]]%in_app_or; [now apply r_queue_batch0|].
    intros Hn. specialize (r_batch0 n Hn). lia.
  - intros x [Hx|[<-|[]]]%in_app_or; [now apply r_queue_target0|].
    intros ([a b] & E & Hab)%in_map_iff. cbn in E. subst b.
    specialize (r_then0 a n Hab). lia.
  - exact r_batch_target0.
  - intros a b Hab [Hx|[<-|[]]]%in_app_or; [eapply r_source_queue0; eauto|].
    specialize (r_then0 n b Hab). lia.
  - exact r_source_target0.
  - intros x Hx. destruct (r_done0 x Hx) as (D1 & D2 & D3).
    split; [|now split].
    intros [Hq|[<-|[]]]%in_app_or; [contradiction|].
    specialize (r_settled0 n Hx). lia.
Qed.

Lemma roles_batch : roles qs (bs ++ [n]) th (S n) st.
Proof.
  destruct H. constructor.
  - intros x Hx. specialize (r_queue0 x Hx). lia.
  - intros x [Hx|[<-|[]]]%in_app_or; [specialize (r_batch0 x Hx)|]; lia.
  - intros a b Hab. specialize (r_then0 a b Hab). lia.
  - intros x Hx. specialize (r_settled0 x Hx). lia.
  - exact r_queue_once0.
  - exact r_target_once0.
  - intros x Hx [Hb|[<-|[]]]%in_app_or; [eapply r_queue_batch0; eauto|].
    specialize (r_queue0 n Hx). lia.
  - exact r_queue_target0.
  - intros x [Hx|[<-|[]]]%in_app_or; [now apply r_batch_target0|].
    intros ([a b] & E & Hab)%in_map_iff. cbn in E. subst b.
    specialize (r_then0 a n Hab). lia.
  - exact r_source_queue0.
  - exact r_source_target0.
  - intros x Hx. destruct (r_done0 x Hx) as (D1 & D2 & D3).
    split; [exact D1|]. split.
    + intros [Hb|[<-|[]]]%in_app_or; [contradiction|].
      specialize (r_settled0 n Hx). lia.
    + intros a Hax [Hb|[<-|[]]]%in_app_or; [eapply D3; eauto|].
      specialize (r_then0 n x Hax). lia.
Qed.

Lemma roles_sub bs' : (forall x, In x bs' -> In x bs) -> roles qs bs' th n st.
Proof.
  intros Hsub. destruct H. constructor; auto.
  - intros x Hx Hb. eapply r_queue_batch0; eauto.
  - intros x Hx. destruct (r_done0 x Hx) as (D1 & D2 & D3).
    split; [exact D1|]. split; [auto|].
    intros a Hax Hb. eapply D3; eauto.
Qed.

(** A promise that is in no role and has nothing chained to it from a
    batch in flight settles, and what is chained to it with it. *)
Lemma roles_settle h :
  h < n -> ~ In h qs -> ~ In h bs -> ~ In h (map snd th) ->
  (forall b, In (h, b) th -> ~ In b bs) ->
  roles qs bs th n (st ++ followers th [h]).
Proof.
  intros Hn Hq Hb Ht Hhb.
  assert (Hf : forall x, In x (followers th [h]) -> x = h \/ In (h, x) th).
  { intros x [[<-|[]]|(a & [<-|[]] & Hl)]%followers_direct; auto.
    exact (r_source_target _ _ _ _ _ H). }
  destruct H. constructor; auto.
  - intros x [Hx|[->|Hx]%Hf]%in_app_or; auto.
    now destruct (r_then0 h x Hx).
  - intros x [Hx|[->|Hx]%Hf]%in_app_or; auto.
    + split; [exact Hq|]. split; [exact Hb|].
      intros a Hah. exfalso. apply Ht. eapply target_In, Hah.
    + split; [|split].
      * intros Hxq. apply (r_queue_target0 x Hxq). eapply target_In, Hx.
      * now apply Hhb.
      * intros a Hax. now rewrite (target_unique th a h x r_target_once0 Hax Hx).
Qed.
End Roles.

(** [_drain] with a call in the queue. *)
Lemma roles_pop q qs bs th n st :
  roles (q :: qs) bs th n st -> roles qs (bs ++ [n]) ((n, q) :: th) (S n) st.
Proof.
  intros H. destruct H. constructor.
  - intros x Hx. specialize (r_queue0 x (or_intror Hx)). lia.
  - intros x [Hx|[<-|[]]]%in_app_or; [specialize (r_batch0 x Hx)|]; lia.
  - intros a b [[= <- <-]|Hab].
    + specialize (r_queue0 q (or_introl eq_refl)). lia.
    + specialize (r_then0 a b Hab). lia.
  - intros x Hx. specialize (r_settled0 x Hx). lia.
  - now inversion r_queue_once0.
  - cbn. constructor; [|exact r_target_once0].
    apply r_queue_target0. now left.
  - intros x Hx [Hb|[<-|[]]]%in_app_or.
    + apply (r_queue_batch0 x); [now right | exact Hb].
    + specialize (r_queue0 n (or_intror Hx)). lia.
  - cbn. intros x Hx [E|Ht].
    + subst x. inversion r_queue_once0; contradiction.
    + apply (r_queue_target0 x); [now right | exact Ht].
  - cbn. intros x [Hx|[E|[]]]%in_app_or [E'|Ht].
    + subst x. apply (r_queue_batch0 q); [now left | exact Hx].
    + now apply (r_batch_target0 x).
    + specialize (r_queue0 q (or_introl eq_refl)). lia.
    + subst x. apply in_map_iff in Ht as ([a b] & E & Hab). cbn in E. subst b.
      specialize (r_then0 a n Hab). lia.
  - intros a b [[= <- <-]|Hab] Hq.
    + specialize (r_queue0 n (or_intror Hq)). lia.
    + apply (r_source_queue0 a b Hab). now right.
  - cbn. intros a b [[= <- <-]|Hab] [E|Ht].
    + specialize (r_queue0 q (or_introl eq_refl)). lia.
    + apply in_map_iff in Ht as ([a' b'] & E & Hab'). cbn in E. subst b'.
      specialize (r_then0 a' n Hab'). lia.
    + subst a. apply (r_source_queue0 q b Hab). now left.
    + now apply (r_source_target0 a b).
  - intros x Hx. destruct (r_done0 x Hx) as (D1 & D2 & D3).
    split; [|split].
    + intros Hq. apply D1. now right.
    + intros [Hb|[<-|[]]]%in_app_or; [contradiction|].
      specialize (r_settled0 n Hx). lia.
    + intros a [[= <- <-]|Hax] [Hb|[E|[]]]%in_app_or.
      * apply D1. now left.
      * apply D1. now left.
      * eapply D3; eauto.
      * subst a. specialize (r_then0 n x Hax). lia.
Qed.

(** A promise made and settled at once, as [waitFor] does. *)
Lemma roles_fresh qs bs th n st :
  roles qs bs th n st -> roles qs bs th (S n) (st ++ [n]).
Proof.
  intros H. destruct H. constructor; auto.
  - intros x Hx. specialize (r_queue0 x Hx). lia.
  - intros x Hx. specialize (r_batch0 x Hx). lia.
  - intros a b Hab. specialize (r_then0 a b Hab). lia.
  - intros x [Hx|[<-|[]]]%in_app_or; [specialize (r_settled0 x Hx)|]; lia.
  - intros x [Hx|[<-|[]]]%in_app_or; [now apply r_done0|].
    split; [|split].
    + intros Hq. specialize (r_queue0 n Hq). lia.
    + intros Hb. specialize (r_batch0 n Hb). lia.
    + intros a Han. specialize (r_then0 a n Han). lia.
Qed.

Lemma roles_new : promise_roles new_Dispatcher.
Proof.
  constructor; cbn; try (intros; contradiction); try constructor.
Qed.

Lemma roles_dispatch p d : promise_roles d -> promise_roles (snd (dispatch p d)).
Proof.
  unfold promise_roles, dispatch. intros H.
  destruct (truthy (_isDispatching d)); cbn.
  - rewrite map_app. cbn. now apply roles_push.
  - rewrite map_app. cbn. now apply roles_batch.
Qed.

Lemma removed_batch h d :
  ~ In h (map b_promise (batches (remove_batch h d))) /\
  forall x, In x (map b_promise (batches (remove_batch h d))) ->
            In x (map b_promise (batches d)).
Proof.
  cbn. split.
  - intros (b & E & [_ Hb]%filter_In)%in_map_iff.
    rewrite <- E, Nat.eqb_refl in Hb. discriminate.
  - intros x (b & E & [Hb _]%filter_In)%in_map_iff.
    apply in_map_iff. now exists b.
Qed.

Lemma roles_using_done h o d :
  promise_roles d -> In h (map b_promise (batches d)) ->
  promise_roles (using_done h o d).
Proof.
  unfold promise_roles. intros H Hh.
  destruct (removed_batch h d) as [Hrem Hsub].
  pose proof (roles_sub _ _ _ _ _ H _ Hsub) as H2.
  assert (Hn : h < promises d) by exact (r_batch _ _ _ _ _ H h Hh).
  assert (Hq : ~ In h (map snd (_queued d))).
  { intros Hq. exact (r_queue_batch _ _ _ _ _ H h Hq Hh). }
  assert (Ht : ~ In h (map snd (thens d))) by exact (r_batch_target _ _ _ _ _ H h Hh).
  assert (Hb : forall b, In (h, b) (thens d) -> ~ In b (map b_promise (batches d))).
  { intros b Hl Hb. apply (r_batch_target _ _ _ _ _ H b Hb). eapply target_In, Hl. }
  unfold using_done, _batchPromise_disposer, _stopDispatching, _drain.
  cbn [_queued set_isDispatching emit set_trace set_dispatchingId remove_batch
       set_batches].
  destruct (_queued d) as [|[p q] rest] eqn:Eq.
  - unfold settle. cbn. rewrite !settled_app, settled_settle. cbn.
    rewrite app_nil_r, Eq. cbn in H2, Hrem.
    apply roles_settle; auto.
    intros b Hl Hin. apply (Hb b Hl), Hsub, Hin.
  - unfold dispatch, then_, settle. cbn.
    rewrite map_app, !settled_app, settled_settle. cbn. rewrite app_nil_r.
    destruct (Nat.eqb_spec (promises d) h) as [E|Hne]; [lia|]. cbn.
    cbn in H2, Hrem, Hq.
    pose proof (roles_pop _ _ _ _ _ _ H2) as H3.
    assert (E : followers (thens d) [h] =
                followers ((promises d, q) :: thens d) [h]).
    { cbn. destruct (Nat.eqb_spec (promises d) h); [lia | reflexivity]. }
    rewrite E. apply roles_settle; auto.
    + intros [Hin|[E'|[]]]%in_app_or; [now apply Hrem | lia].
    + cbn. intros [E'|Hin]; [|contradiction]. apply Hq. now left.
    + intros b [[= E1 E2]|Hl] [Hin|[E'|[]]]%in_app_or; try lia.
      * apply (Hb b Hl). apply Hsub. exact Hin.
      * subst b. destruct (r_then _ _ _ _ _ H h (promises d) Hl). lia.
Qed.

Lemma roles_each h idxs : forall d,
  promise_roles d -> In h (map b_promise (batches d)) ->
  promise_roles (_dispatchBatch_each h idxs d).
Proof.
  induction idxs as [|k rest IH]; intros d H Hh.
  - now apply roles_using_done.
  - cbn. destruct (obj_get k (_pending d)) as [c|].
    + unfold call_closure; cbn.
      destruct (obj_get (c_idx c) (_callbacks d)) as [f|].
      * unfold promise_roles. cbn.
        rewrite map_b_promise_set, settled_app. cbn. now rewrite app_nil_r.
      * each_state ltac:(fun s => apply (IH s)); [exact H | exact Hh].
    + each_state ltac:(fun s => apply (IH s)); [exact H | exact Hh].
Qed.

Lemma roles_fresh_settle o d :
  promise_roles d ->
  promise_roles (settle (promises d) o (snd (new_promise d))).
Proof.
  unfold promise_roles. intros H. unfold settle. cbn.
  rewrite settled_app, settled_settle, followers_fresh.
  - now apply roles_fresh.
  - intros a b Hab E. destruct (r_then _ _ _ _ _ H a b Hab). lia.
Qed.

Lemma roles_waitFor ids d : promise_roles d -> promise_roles (snd (waitFor ids d)).
Proof.
  intros H. unfold waitFor, promiseMethod, waitFor_method.
  destruct (truthy (_isDispatching d)); cbn; [|now apply roles_fresh_settle].
  destruct (waitFor_forEach d ids []) as [pending|m];
    [|now apply roles_fresh_settle].
  destruct (obj_keys pending); [now apply roles_fresh_settle|].
  unfold promise_roles. cbn. rewrite map_app. cbn. now apply roles_batch.
Qed.

Lemma find_promise_In (g : batch -> bool) bs b :
  find g bs = Some b -> In (b_promise b) (map b_promise bs).
Proof. intros [Hb _]%find_some. now apply in_map. Qed.

Lemma roles_step c d : promise_roles d -> promise_roles (step c d).
Proof.
  intros H. destruct c as [cb|i|p|ids|h|inv o]; cbn.
  - exact H.
  - exact H.
  - now apply roles_dispatch.
  - now apply roles_waitFor.
  - unfold find_created.
    destruct (find (fun b => Nat.eqb h (b_promise b)) (batches d))
      as [[h' [idxs|]]|] eqn:Hf; try exact H.
    apply roles_each; [exact H|].
    pose proof (find_some _ _ Hf) as [_ E]. cbn in E.
    apply Nat.eqb_eq in E. subst h'. exact (find_promise_In _ _ _ Hf).
  - destruct (find (awaits inv) (batches d)) as [[h [idxs|inv' idx rest]]|]
      eqn:Hf; try exact H.
    pose proof (find_promise_In _ _ _ Hf) as Hh. cbn in Hh.
    assert (H1 : promise_roles (_postDispatch idx (emit (Return inv o) d))).
    { unfold promise_roles. cbn. rewrite settled_app. cbn.
      now rewrite app_nil_r. }
    unfold job_settled. destruct o.
    + now apply roles_each.
    + now apply roles_using_done.
Qed.

Lemma roles_run cs : forall d, promise_roles d -> promise_roles (run cs d).
Proof.
  induction cs as [|c cs IH]; intros d H; cbn; [exact H|].
  apply IH, roles_step, H.
Qed.

Lemma roles_reachable cs : promise_roles (run cs new_Dispatcher).
Proof. apply roles_run, roles_new. Qed.

(** The events [t] hold the settlement of [h] and of what is chained to
    it with outcome [o], and no other settlement. *)
Lemma settlement_In o (l : list promise) x o' :
  In (Settled x o') (Stop :: map (fun y => Settled y o) l) <->
  o' = o /\ In x l.
Proof.
  cbn. rewrite in_map_iff. split.
  - intros [E|(y & E & Hy)]; [discriminate|]. injection E as -> ->. auto.
  - intros [-> Hx]. right. eauto.
Qed.

Lemma using_done_trace h o d :
  trace (using_done h o d) =
  trace d ++ Stop :: map (fun y => Settled y o)
                       (followers (thens (using_done h o d)) [h]).
Proof.
  unfold using_done, _batchPromise_disposer, _stopDispatching, settle. cbn.
  rewrite drain_trace. cbn. now rewrite <- app_assoc.
Qed.

Lemma using_done_settles h o d :
  In h (map b_promise (batches d)) ->
  exists t, trace (using_done h o d) = trace d ++ t /\
            one_settlement d (using_done h o d) t.
Proof.
  intros Hh. eexists. split; [apply using_done_trace|].
  right. exists h, o. split; [now left|].
  intros x o'. apply settlement_In.
Qed.

Lemma each_settles h idxs : forall d,
  In h (map b_promise (batches d)) ->
  exists t, trace (_dispatchBatch_each h idxs d) = trace d ++ t /\
            one_settlement d (_dispatchBatch_each h idxs d) t.
Proof.
  induction idxs as [|k rest IH]; intros d Hh.
  - now apply using_done_settles.
  - cbn. destruct (obj_get k (_pending d)) as [c|].
    + unfold call_closure; cbn.
      destruct (obj_get (c_idx c) (_callbacks d)) as [f|].
      * cbn. eexists. split; [reflexivity | now left].
      * each_state ltac:(fun s => apply (IH s)). exact Hh.
    + each_state ltac:(fun s => apply (IH s)). exact Hh.
Qed.

Lemma step_settles c d :
  exists t, trace (step c d) = trace d ++ t /\ one_settlement d (step c d) t.
Proof.
  assert (Hnil : forall d', trace d' = trace d ->
            exists t, trace d' = trace d ++ t /\ one_settlement d d' t).
  { intros d' E. exists []. rewrite app_nil_r. split; [exact E | now left]. }
  assert (Hfresh : forall o,
            exists t, trace (settle (promises d) o (snd (new_promise d))) =
                      trace d ++ t /\
                      one_settlement d
                        (settle (promises d) o (snd (new_promise d))) t).
  { intros o. eexists. split; [reflexivity|].
    right. exists (promises d), o. split; [now right|].
    intros x o'. cbn. rewrite in_map_iff. split.
    - intros (y & [= -> ->] & Hy). auto.
    - intros [-> Hx]. eauto. }
  destruct c as [cb|i|p|ids|h|inv o]; cbn [step].
  - now apply Hnil.
  - now apply Hnil.
  - apply Hnil, dispatch_trace.
  - unfold waitFor, promiseMethod, waitFor_method.
    destruct (truthy (_isDispatching d)); cbn; [|apply Hfresh].
    destruct (waitFor_forEach d ids []) as [pending|m]; [|apply Hfresh].
    destruct (obj_keys pending); [apply Hfresh | now apply Hnil].
  - unfold find_created.
    destruct (find (fun b => Nat.eqb h (b_promise b)) (batches d))
      as [[h' [idxs|]]|] eqn:Hf; try now apply Hnil.
    apply each_settles.
    pose proof (find_some _ _ Hf) as [_ E]. cbn in E.
    apply Nat.eqb_eq in E. subst h'. exact (find_promise_In _ _ _ Hf).
  - destruct (find (awaits inv) (batches d)) as [[h [idxs|inv' idx rest]]|]
      eqn:Hf; try now apply Hnil.
    pose proof (find_promise_In _ _ _ Hf) as Hh. cbn in Hh.
    assert (Hd : exists t,
              trace (job_settled h idx rest o (emit (Return inv o) d)) =
              trace (_postDispatch idx (emit (Return inv o) d)) ++ t /\
              one_settlement (_postDispatch idx (emit (Return inv o) d))
                (job_settled h idx rest o (emit (Return inv o) d)) t).
    { unfold job_settled. destruct o;
        [now apply each_settles | now apply using_done_settles]. }
    destruct Hd as (t & Et & Hs). exists (Return inv o :: t). split.
    + rewrite Et. cbn. now rewrite <- app_assoc.
    + destruct Hs as [Hs|(h0 & o0 & Hh0 & Hs)]; [now left|].
      right. exists h0, o0. split; [exact Hh0|].
      intros x o'. rewrite <- Hs. cbn. split; [|auto].
      intros [E|Hin]; [discriminate | exact Hin].
Qed.

(** In one step, a promise chained to the promise of a batch settles
    exactly when that promise does, with the same outcome. *)
Lemma chained_step c d h q :
  promise_roles d -> In (h, q) (thens d) ->
  exists t, trace (step c d) = trace d ++ t /\
            forall o, In (Settled q o) t <-> In (Settled h o) t.
Proof.
  intros H Hl. destruct (step_settles c d) as (t & Et & Hs).
  exists t. split; [exact Et|]. intros o.
  destruct Hs as [Hs|(h' & o' & Hh' & Hs)].
  - split; intros Hin; exfalso;
      (assert (Hx : In q (settled t) \/ In h (settled t))
         by (rewrite !settled_In; eauto));
      rewrite Hs in Hx; now destruct Hx.
  - pose proof (roles_step c d H) as H'. unfold promise_roles in H, H'.
    pose proof (step_thens c d _ Hl) as Hl'.
    rewrite !Hs. split; intros [-> Hin]; (split; [reflexivity|]).
    + apply followers_direct in Hin as [[E|[]]|(a & [E|[]] & Ha)];
        [| | exact (r_source_target _ _ _ _ _ H')].
      * exfalso. subst h'. destruct Hh' as [Hb|E].
        -- apply (r_batch_target _ _ _ _ _ H q Hb). eapply target_In, Hl.
        -- destruct (r_then _ _ _ _ _ H h q Hl). lia.
      * subst a.
        rewrite (target_unique _ _ _ _ (r_target_once _ _ _ _ _ H') Hl' Ha).
        apply followers_head. now left.
    + apply followers_direct in Hin as [[E|[]]|(a & [E|[]] & Ha)];
        [| | exact (r_source_target _ _ _ _ _ H')].
      * subst h'. apply (followers_link _ _ h); [exact Hl' | now left].
      * exfalso. apply (r_source_target _ _ _ _ _ H' h q Hl').
        eapply target_In, Ha.
Qed.

(** A batch that ends with a call in the queue starts that call. *)
Lemma using_done_starts h o d p q rest :
  wf_core d ->
  _queued d = (p, q) :: rest ->
  let s := using_done h o d in
  _queued s = rest /\
  In (promises d, q) (thens s) /\
  In {| b_promise := promises d;
        b_state := Created (obj_keys (_callbacks d)) |} (batches s) /\
  _pending s = snapshot p (obj_keys (_callbacks d)).
Proof.
  intros Hwf Hq s. subst s.
  unfold using_done, _batchPromise_disposer, _stopDispatching, _drain.
  cbn [_queued set_isDispatching emit set_trace set_dispatchingId remove_batch
       set_batches].
  rewrite Hq. rewrite dispatch_opens.
  - cbn. repeat split; [now left|]. apply in_or_app. right. now left.
  - apply wf_set_queued, wf_set_isDispatching, wf_emit, wf_set_dispatchingId.
    now apply wf_remove_batch.
  - reflexivity.
Qed.

Lemma each_starts h idxs p q rest : forall d,
  wf_core d ->
  _queued d = (p, q) :: rest ->
  let s := _dispatchBatch_each h idxs d in
  _queued s = _queued d \/
  (_queued s = rest /\
   In (promises d, q) (thens s) /\
   In {| b_promise := promises d;
         b_state := Created (obj_keys (_callbacks d)) |} (batches s) /\
   _pending s = snapshot p (obj_keys (_callbacks d))).
Proof.
  induction idxs as [|k ks IH]; intros d Hwf Hq.
  - right. now apply using_done_starts.
  - cbn. destruct (obj_get k (_pending d)) as [c|].
    + unfold call_closure; cbn.
      destruct (obj_get (c_idx c) (_callbacks d)) as [f|]; [now left|].
      each_state ltac:(fun s => apply (IH s)); [|exact Hq].
      now apply wf_postDispatch, wf_set_openPromises, wf_set_dispatchingId.
    + each_state ltac:(fun s => apply (IH s)); [|exact Hq].
      now apply wf_postDispatch, wf_set_openPromises, wf_set_dispatchingId.
Qed.

(** The step after which the oldest queued call is out of the queue is
    the end of a batch, which has started that call. *)
Lemma step_starts c d p q rest :
  wf d ->
  _queued d = (p, q) :: rest ->
  _queued (step c d) = rest ->
  In (promises d, q) (thens (step c d)) /\
  In {| b_promise := promises d;
        b_state := Created (obj_keys (_callbacks d)) |} (batches (step c d)) /\
  _pending (step c d) = snapshot p (obj_keys (_callbacks d)).
Proof.
  intros [Hwf Hidle] Hq Hq'.
  assert (Hflag : truthy (_isDispatching d) = true).
  { destruct (truthy (_isDispatching d)) eqn:E; [reflexivity|].
    rewrite (Hidle E) in Hq. discriminate. }
  assert (Hsame : _queued (step c d) = _queued d -> False).
  { rewrite Hq', Hq. intros E. apply (f_equal (@List.length _)) in E.
    cbn in E. lia. }
  destruct c as [cb|i|p'|ids|h|inv o]; cbn [step] in *.
  - now contradiction Hsame.
  - now contradiction Hsame.
  - exfalso. unfold dispatch in Hq'. rewrite Hflag in Hq'. cbn in Hq'.
    rewrite Hq in Hq'. apply (f_equal (@List.length _)) in Hq'.
    cbn in Hq'. rewrite length_app in Hq'. cbn in Hq'. lia.
  - exfalso. apply Hsame. apply waitFor_idle.
  - destruct (find_created h d) as [idxs|]; [|now contradiction Hsame].
    destruct (each_starts h idxs p q rest d Hwf Hq) as [E|(_ & H)];
      [now contradiction Hsame | exact H].
  - destruct (find (awaits inv) (batches d)) as [[h [idxs|inv' idx rest']]|];
      try now contradiction Hsame.
    unfold job_settled in *. destruct o as [|m].
    + destruct (each_starts h rest' p q rest
                  (_postDispatch idx (emit (Return inv Resolved) d)))
        as [E|(_ & H)]; [| exact Hq | now contradiction Hsame | exact H].
      now apply wf_postDispatch, wf_emit.
    + destruct (using_done_starts h (Rejected m)
                  (_postDispatch idx (emit (Return inv (Rejected m)) d))
                  p q rest) as (_ & H); [| exact Hq | exact H].
      now apply wf_postDispatch, wf_emit.
Qed.

(** X10.  The promise that a queued call of [dispatch] got settles with
    the outcome of its own broadcast.  Take a state the dispatcher can
    reach, with a call in the queue, and a step after which the oldest
    call is out of the queue: the step has ended a batch and its
    [_stopDispatching()] has opened the broadcast of that call, whose
    batch has the next promise.  Neither that promise nor the one the
    queued caller holds has settled then; and whatever calls follow,
    the caller's promise settles with an outcome exactly when the
    promise of the batch settles with it. *)
Theorem queued_promise_settles_with_its_broadcast cs c p q rest cs' :
  let d := run cs new_Dispatcher in
  let s := step c d in
  let h := promises d in
  _queued d = (p, q) :: rest ->
  _queued s = rest ->
  (In {| b_promise := h; b_state := Created (obj_keys (_callbacks d)) |}
      (batches s) /\
   _pending s = snapshot p (obj_keys (_callbacks d))) /\
  (forall o, ~ In (Settled h o) (trace s)) /\
  (forall o, ~ In (Settled q o) (trace s)) /\
  (forall o, In (Settled q o) (trace (run cs' s)) <->
             In (Settled h o) (trace (run cs' s))).
Proof.
  intros d s h Hq Hq'.
  destruct (step_starts c d p q rest (wf_reachable cs) Hq Hq') as (Hl & Hb & Hp).
  fold s h in Hl, Hb, Hp.
  assert (Hroles : promise_roles s).
  { apply roles_step, roles_reachable. }
  assert (Hh : In h (map b_promise (batches s))).
  { apply in_map_iff. eexists. split; [|exact Hb]. reflexivity. }
  split; [now split|].
  assert (Hnh : forall o, ~ In (Settled h o) (trace s)).
  { intros o Hin. unfold promise_roles in Hroles.
    destruct (r_done _ _ _ _ _ Hroles h) as (_ & D & _); [|contradiction].
    apply settled_In. eauto. }
  assert (Hnq : forall o, ~ In (Settled q o) (trace s)).
  { intros o Hin. unfold promise_roles in Hroles.
    destruct (r_done _ _ _ _ _ Hroles q) as (_ & _ & D).
    - apply settled_In. eauto.
    - exact (D h Hl Hh). }
  split; [exact Hnh|]. split; [exact Hnq|].
  induction cs' as [|c' cs' IH] using rev_ind; intros o.
  - cbn. split; intros Hin; exfalso; [eapply Hnq | eapply Hnh]; eauto.
  - rewrite run_snoc.
    destruct (chained_step c' (run cs' s) h q) as (t & Et & Ht).
    + now apply roles_run.
    + now apply run_thens.
    + rewrite Et, !in_app_iff, IH, Ht. reflexivity.
Qed.

Lemma queued_promise_settles_with_its_broadcast_witness :
  let d := run [Register 100; Dispatch 1; Dispatch 2; RunBatch 0] new_Dispatcher in
  let s := step (Settle 0 Resolved) d in
  let s' := run [RunBatch 2; Settle 1 (Rejected "boom")] s in
  _queued d = [(2, 1)] /\
  _queued s = [] /\
  trace s = [Invoke 0 1 100 1; Return 0 Resolved; Stop; Settled 0 Resolved] /\
  In (Settled 2 (Rejected "boom")) (trace s') /\
  In (Settled 1 (Rejected "boom")) (trace s').
Proof.
  cbv zeta.
  split; [reflexivity|]. split; [reflexivity|].
  split; [vm_compute; reflexivity|].
  assert (H2 : In (Settled 2 (Rejected "boom"))
                 (trace (run [RunBatch 2; Settle 1 (Rejected "boom")]
                           (step (Settle 0 Resolved)
                              (run [Register 100; Dispatch 1; Dispatch 2;
                                    RunBatch 0] new_Dispatcher))))).
  { vm_compute. auto 10. }
  split; [exact H2|].
  apply (queued_promise_settles_with_its_broadcast
           [Register 100; Dispatch 1; Dispatch 2; RunBatch 0]
           (Settle 0 Resolved) 2 1 []
           [RunBatch 2; Settle 1 (Rejected "boom")]);
    [reflexivity | reflexivity | exact H2].
Defined.
